(** * github-contribution-tracker: src/main.py

    A shallow embedding of the fetch / paginate / normalise pipeline of
    [src/main.py]:
    - [get_organization_id] over a small model of decoded JSON values;
    - [fetch_contributions]'s pagination loop over typed page responses,
      threading the accumulator and recording the cursor of every request;
    - [process_contributions] as a function of a typed aggregate, with
      [datetime.strptime(_, "%Y-%m-%dT%H:%M:%SZ").strftime("%Y-%m-%d")]
      modelled as CPython's regex-driven [_strptime] does it;
    - [process_contributions] once more over an explicit object heap, for
      the statements about aliasing and side effects. *)

From Stdlib Require Import List String Ascii ZArith Lia Bool Sorting Permutation.
Import ListNotations.
Open Scope string_scope.

(** ** Errors

    The code raises [requests.HTTPError] (from [raise_for_status]) and
    [ValueError] (for API errors, a missing organisation and a timestamp
    that [strptime] refuses); a malformed payload surfaces as a [KeyError]
    or a [TypeError]. The constructors follow the error taxonomy of the
    spec; the two [ValueError]s raised with an explicit message are
    [ApiError] ("GitHub API Error: ...") and [NotFoundError]
    ("Organization '...' not found."). Writing the report can raise an
    [OSError] (from [open] or [file.write], e.g. [PermissionError] or a full
    disk) or a [UnicodeEncodeError] (a lone surrogate in a title). *)
Inductive Error :=
| TransportError
| ApiError
| NotFoundError
| ParseError
| KeyError
| TypeError
| OSError
| UnicodeEncodeError.

Inductive result (A : Type) :=
| Ok (a : A)
| Err (e : Error).
Arguments Ok {A} a.
Arguments Err {A} e.

Definition bind {A B} (m : result A) (f : A -> result B) : result B :=
  match m with
  | Ok a => f a
  | Err e => Err e
  end.

Notation "x <- m ;; k" := (bind m (fun x => k))
  (at level 61, m at next level, right associativity).

(** A Python [for] loop that appends one item per element, stopping at the
    first exception. *)
Fixpoint mapM {A B} (f : A -> result B) (l : list A) : result (list B) :=
  match l with
  | [] => Ok []
  | x :: xs => y <- f x;; ys <- mapM f xs;; Ok (y :: ys)
  end.

(** ** [datetime.strptime(s, "%Y-%m-%dT%H:%M:%SZ")]

    CPython's [_strptime] turns the format into the regular expression
    [(?P<Y>\d\d\d\d)-(?P<m>1[0-2]|0[1-9]|[1-9])-(?P<d>3[0-1]|[1-2]\d|0[1-9]|[1-9]| [1-9])T(?P<H>2[0-3]|[0-1]\d|\d):(?P<M>[0-5]\d|\d):(?P<S>6[0-1]|[0-5]\d|\d)Z],
    compiled with [re.IGNORECASE], applies [re.match] (the first match in
    backtracking order) and raises [ValueError] when the match does not
    reach the end of the string ("unconverted data remains"). It then builds
    a [datetime], which refuses a day beyond the month's length, year 0 and
    a second of 60 or 61.

    A parser is a list of all matches in backtracking order; [re.match]
    is the head of that list. Characters are ASCII ([\d] also matches
    other Unicode digits, which this model does not represent). *)
Definition parser (A : Type) := list ascii -> list (A * list ascii).

Definition p_alt {A} (p q : parser A) : parser A := fun s => (p s ++ q s)%list.

Definition p_bind {A B} (p : parser A) (f : A -> parser B) : parser B :=
  fun s => flat_map (fun '(a, rest) => f a rest) (p s).

Definition p_ret {A} (a : A) : parser A := fun s => [(a, s)].

Definition p_char (f : ascii -> option nat) : parser nat :=
  fun s => match s with
           | c :: rest => match f c with Some n => [(n, rest)] | None => [] end
           | [] => []
           end.

Definition digit_val (c : ascii) : nat := nat_of_ascii c - 48.

(** A character class [[lo-hi]] of digits, returning the digit's value. *)
Definition p_digit_in (lo hi : nat) : parser nat :=
  p_char (fun c => let n := nat_of_ascii c in
                   if ((48 + lo <=? n) && (n <=? 48 + hi))%nat then Some (digit_val c)
                   else None).

Definition p_digit : parser nat := p_digit_in 0 9.

(** A literal character under [re.IGNORECASE]. *)
Definition lower (c : ascii) : ascii :=
  let n := nat_of_ascii c in
  if ((65 <=? n) && (n <=? 90))%nat then ascii_of_nat (n + 32) else c.

Definition p_lit (c : ascii) : parser nat :=
  p_char (fun d => if Ascii.eqb (lower c) (lower d) then Some 0 else None).

Definition p_two (p q : parser nat) : parser nat :=
  p_bind p (fun a => p_bind q (fun b => p_ret (10 * a + b))).

(** [1[0-2]|0[1-9]|[1-9]] *)
Definition re_m : parser nat :=
  p_alt (p_two (p_digit_in 1 1) (p_digit_in 0 2))
    (p_alt (p_two (p_digit_in 0 0) (p_digit_in 1 9)) (p_digit_in 1 9)).

(** [3[0-1]|[1-2]\d|0[1-9]|[1-9]| [1-9]] *)
Definition re_d : parser nat :=
  p_alt (p_two (p_digit_in 3 3) (p_digit_in 0 1))
    (p_alt (p_two (p_digit_in 1 2) p_digit)
      (p_alt (p_two (p_digit_in 0 0) (p_digit_in 1 9))
        (p_alt (p_digit_in 1 9)
          (p_bind (p_lit " "%char) (fun _ => p_digit_in 1 9))))).

(** [2[0-3]|[0-1]\d|\d] *)
Definition re_H : parser nat :=
  p_alt (p_two (p_digit_in 2 2) (p_digit_in 0 3))
    (p_alt (p_two (p_digit_in 0 1) p_digit) p_digit).

(** [[0-5]\d|\d] *)
Definition re_M : parser nat :=
  p_alt (p_two (p_digit_in 0 5) p_digit) p_digit.

(** [6[0-1]|[0-5]\d|\d] *)
Definition re_S : parser nat :=
  p_alt (p_two (p_digit_in 6 6) (p_digit_in 0 1))
    (p_alt (p_two (p_digit_in 0 5) p_digit) p_digit).

(** [\d\d\d\d] *)
Definition re_Y : parser nat :=
  p_two (p_two (p_two p_digit p_digit) p_digit) p_digit.

Definition p_then {A} (c : ascii) (p : parser A) : parser A :=
  p_bind (p_lit c) (fun _ => p).

Record fields := mkFields {
  f_year : nat; f_month : nat; f_day : nat;
  f_hour : nat; f_minute : nat; f_second : nat }.

Definition re_timestamp : parser fields :=
  p_bind re_Y (fun y =>
  p_then "-"%char (p_bind re_m (fun mo =>
  p_then "-"%char (p_bind re_d (fun d =>
  p_then "T"%char (p_bind re_H (fun h =>
  p_then ":"%char (p_bind re_M (fun mi =>
  p_then ":"%char (p_bind re_S (fun se =>
  p_then "Z"%char (p_ret (mkFields y mo d h mi se))))))))))))).

Definition is_leap (y : nat) : bool :=
  (Nat.eqb (y mod 4) 0 && negb (Nat.eqb (y mod 100) 0)) || Nat.eqb (y mod 400) 0.

Definition days_in_month (y m : nat) : nat :=
  match m with
  | 2 => if is_leap y then 29 else 28
  | 4 | 6 | 9 | 11 => 30
  | _ => 31
  end.

(** The checks of [datetime_date(year, month, day)] and of the final
    [datetime(...)] constructor ([MINYEAR = 1], [second <= 59]); the regex
    already bounds month, hour and minute. *)
Definition datetime_ok (f : fields) : bool :=
  ((1 <=? f_year f) && (f_year f <=? 9999)
   && (1 <=? f_month f) && (f_month f <=? 12)
   && (1 <=? f_day f) && (f_day f <=? days_in_month (f_year f) (f_month f))
   && (f_hour f <=? 23) && (f_minute f <=? 59) && (f_second f <=? 59))%nat.

Definition strptime (s : string) : result fields :=
  match re_timestamp (list_ascii_of_string s) with
  | (f, []) :: _ => if datetime_ok f then Ok f else Err ParseError
  | (_, _ :: _) :: _ => Err ParseError  (* unconverted data remains *)
  | [] => Err ParseError                (* does not match format *)
  end.

(** [strftime("%Y-%m-%d")]: two-digit month and day, and the year as
    CPython 3.12.5 and later print it, zero-padded to four digits. Earlier
    CPython versions pass [%Y] to the C library, and glibc prints a year
    below 1000 without padding ([999], not [0999]); for years 1000 to 9999
    every version prints the same four digits. *)
Definition digit_char (n : nat) : ascii := ascii_of_nat (48 + n).

Definition pad2 (n : nat) : string :=
  String (digit_char (n / 10)) (String (digit_char (n mod 10)) EmptyString).

Definition pad4 (n : nat) : string :=
  String (digit_char (n / 1000))
    (String (digit_char ((n / 100) mod 10))
      (String (digit_char ((n / 10) mod 10))
        (String (digit_char (n mod 10)) EmptyString))).

Definition strftime_date (f : fields) : string :=
  pad4 (f_year f) ++ "-" ++ pad2 (f_month f) ++ "-" ++ pad2 (f_day f).

Definition to_day (s : string) : result string :=
  f <- strptime s;; Ok (strftime_date f).

(** ** Contribution nodes, pages and the aggregate

    The fields that [fetch_contributions]'s query selects and that the code
    reads. *)
Record PullRequest := mkPullRequest {
  pr_title : string; pr_url : string; pr_state : string;
  pr_repository : string; pr_createdAt : string;
  pr_merged : bool; pr_closed : bool }.

Record IssueNode := mkIssue {
  is_title : string; is_url : string; is_state : string;
  is_repository : string; is_createdAt : string }.

Record CommitNode := mkCommitNode {
  cm_commitCount : Z; cm_occurredAt : string;
  cm_resourcePath : string; cm_url : string }.

(** One element of [commitContributionsByRepository]. *)
Record CommitRepo := mkCommitRepo {
  repo_name : string; repo_nodes : list CommitNode }.

(** [data["data"]["user"]["contributionsCollection"]] of one page. *)
Record Collection := mkCollection {
  totalPullRequestContributions : Z;
  hasNextPage : bool;
  endCursor : option string;
  pr_nodes : list PullRequest;
  issue_nodes : list IssueNode;
  commit_repos : list CommitRepo }.

(** The decoded body of one response to the paginated query: [errors] is
    [Some l] when the body has an ["errors"] key (carrying the list [l]),
    [page] is [None] when [data.user] is [null]. *)
Record Body := mkBody {
  errors : option (list string);
  page : option Collection }.

Inductive Response :=
| HttpFailure                (* [raise_for_status] raises *)
| HttpOk (b : Body).

(** [all_contributions]: the three collections the code fills in. *)
Record Aggregate := mkAggregate {
  agg_prs : list PullRequest;
  agg_issues : list IssueNode;
  agg_commits : list CommitRepo }.

Definition empty_aggregate : Aggregate := mkAggregate [] [] [].

(** ** The pagination loop of [fetch_contributions] (lines 107-149)

    The server is the list of responses it gives to the successive
    requests. The loop records the [prCursor] variable of each request it
    issues. [Pending] is the state in which a request has been issued and the
    given list of responses has no answer for it. *)
Inductive Outcome :=
| Done (agg : Aggregate)
| Failed (e : Error)
| Pending.

(** One iteration after the response has been checked: lines 125-146. *)
Definition absorb (acc : Aggregate) (total : nat) (cd : Collection)
  : Aggregate * nat :=
  let prs := (agg_prs acc ++ pr_nodes cd)%list in
  let total' := (total + List.length (pr_nodes cd))%nat in
  let issues := match agg_issues acc with
                | [] => issue_nodes cd
                | l => l
                end in
  let commits := match agg_commits acc with
                 | [] => commit_repos cd
                 | l => l
                 end in
  (mkAggregate prs issues commits, total').

Fixpoint fetch_loop (cursor : option string) (acc : Aggregate) (total : nat)
  (rs : list Response) : list (option string) * Outcome :=
  match rs with
  | [] => ([cursor], Pending)
  | r :: rs' =>
      let '(tr, out) :=
        match r with
        | HttpFailure => ([], Failed TransportError)
        | HttpOk b =>
            match errors b with
            | Some _ => ([], Failed ApiError)
            | None =>
                match page b with
                | None => ([], Failed TypeError)
                | Some cd =>
                    let '(acc', total') := absorb acc total cd in
                    if hasNextPage cd
                    then fetch_loop (endCursor cd) acc' total' rs'
                    else ([], Done acc')
                end
            end
        end in
      (cursor :: tr, out)
  end.

Definition fetch (rs : list Response) : list (option string) * Outcome :=
  fetch_loop None empty_aggregate 0 rs.

(** ** [process_contributions] (lines 151-189) over the typed aggregate *)

(** The ["type"] field: ["Pull Request"], ["Issue"] or ["Commit"]. *)
Inductive ContribType := PullRequestT | IssueT | CommitT.

Definition type_label (t : ContribType) : string :=
  match t with
  | PullRequestT => "Pull Request"
  | IssueT => "Issue"
  | CommitT => "Commit"
  end.

Record ContributionRecord := mkRecord {
  rec_type : ContribType;
  rec_title : string;
  rec_repository : string;
  rec_status : string;
  rec_url : string;
  rec_date : string }.

(** [str] of a Python [int]. *)
Definition digits_of_nat (n : nat) : string :=
  let fix go (fuel n : nat) (acc : string) : string :=
    match fuel with
    | 0 => acc
    | S fuel' =>
        let acc' := String (digit_char (n mod 10)) acc in
        if (n <? 10)%nat then acc' else go fuel' (n / 10) acc'
    end in
  go (S n) n EmptyString.

Definition z_to_str (z : Z) : string :=
  match z with
  | Z0 => "0"
  | Zpos p => digits_of_nat (Pos.to_nat p)
  | Zneg p => "-" ++ digits_of_nat (Pos.to_nat p)
  end.

Definition pr_record (pr : PullRequest) : result ContributionRecord :=
  d <- to_day (pr_createdAt pr);;
  Ok (mkRecord PullRequestT (pr_title pr) (pr_repository pr) (pr_state pr)
         (pr_url pr) d).

Definition issue_record (i : IssueNode) : result ContributionRecord :=
  d <- to_day (is_createdAt i);;
  Ok (mkRecord IssueT (is_title i) (is_repository i) (is_state i)
         (is_url i) d).

Definition commit_record (repo : CommitRepo) (c : CommitNode)
  : result ContributionRecord :=
  d <- to_day (cm_occurredAt c);;
  Ok (mkRecord CommitT
         (z_to_str (cm_commitCount c) ++ " commits to " ++ repo_name repo)
         (repo_name repo) "Committed" (cm_url c) d).

Definition pr_records (agg : Aggregate) : result (list ContributionRecord) :=
  mapM pr_record (agg_prs agg).

Definition issue_records (agg : Aggregate) : result (list ContributionRecord) :=
  mapM issue_record (agg_issues agg).

Definition commit_records (agg : Aggregate) : result (list ContributionRecord) :=
  rs <- mapM (fun repo => mapM (commit_record repo) (repo_nodes repo))
              (agg_commits agg);;
  Ok (List.concat rs).

(** The list [contributions] just before the final [sorted]. *)
Definition enumerate (agg : Aggregate) : result (list ContributionRecord) :=
  ps <- pr_records agg;;
  iss <- issue_records agg;;
  cs <- commit_records agg;;
  Ok (ps ++ iss ++ cs)%list.

(** [sorted(xs, key=k, reverse=True)]: Python's documented contract, a
    stable sort in descending key order (elements with equal keys keep
    their original order), realised as an insertion sort that inserts each
    element after every element whose key is not smaller. Keys are [str]s
    compared code point by code point. *)
Section SortedDesc.
Variable A : Type.
Variable key : A -> string.

Fixpoint insert_desc (x : A) (l : list A) : list A :=
  match l with
  | [] => [x]
  | y :: ys => if String.ltb (key y) (key x) then x :: y :: ys
               else y :: insert_desc x ys
  end.

Definition sorted_desc (l : list A) : list A :=
  fold_left (fun acc x => insert_desc x acc) l [].

(** [a] may precede [b]: [key a >= key b]. *)
Definition desc (a b : A) : Prop := String.ltb (key a) (key b) = false.

(** [a] has the key [d]; the stability statement filters on it. *)
Definition key_is (d : string) (a : A) : bool := String.eqb (key a) d.
End SortedDesc.
Arguments insert_desc {A} key x l.
Arguments sorted_desc {A} key l.
Arguments desc {A} key a b.
Arguments key_is {A} key d a.

Definition normalize (agg : Aggregate) : result (list ContributionRecord) :=
  cs <- enumerate agg;;
  Ok (sorted_desc rec_date cs).

(** ** [get_organization_id] (lines 18-34) over decoded JSON

    [response.json()] yields a JSON value; integers stand for JSON numbers.
    [json.loads] keeps the last of duplicate keys. *)
Inductive json :=
| JNull
| JBool (b : bool)
| JNum (z : Z)
| JStr (s : string)
| JArr (xs : list json)
| JObj (kvs : list (string * json)).

Inductive HttpResponse :=
| HttpError                  (* [raise_for_status] raises *)
| HttpJson (j : json).

Fixpoint lookup_last (k : string) (kvs : list (string * json)) : option json :=
  match kvs with
  | [] => None
  | (k', v) :: rest =>
      match lookup_last k rest with
      | Some w => Some w
      | None => if String.eqb k k' then Some v else None
      end
  end.

Fixpoint is_substring (needle hay : string) : bool :=
  String.prefix needle hay ||
  match hay with
  | EmptyString => false
  | String _ hay' => is_substring needle hay'
  end.

(** [key in v] for a [str] key. *)
Definition py_contains (v : json) (key : string) : result bool :=
  match v with
  | JObj kvs => Ok (match lookup_last key kvs with Some _ => true | None => false end)
  | JArr xs => Ok (existsb (fun x => match x with
                                     | JStr s => String.eqb s key
                                     | _ => false end) xs)
  | JStr s => Ok (is_substring key s)
  | _ => Err TypeError
  end.

(** [v[key]] for a [str] key. *)
Definition py_getitem (v : json) (key : string) : result json :=
  match v with
  | JObj kvs => match lookup_last key kvs with
                | Some w => Ok w
                | None => Err KeyError
                end
  | _ => Err TypeError
  end.

(** Python truthiness. *)
Definition truthy (v : json) : bool :=
  match v with
  | JNull => false
  | JBool b => b
  | JNum z => negb (Z.eqb z 0)
  | JStr s => match s with EmptyString => false | _ => true end
  | JArr xs => match xs with [] => false | _ => true end
  | JObj kvs => match kvs with [] => false | _ => true end
  end.

Definition get_organization_id (resp : HttpResponse) : result json :=
  match resp with
  | HttpError => Err TransportError
  | HttpJson data =>
      has_data <- py_contains data "data";;
      if has_data then
        d <- py_getitem data "data";;
        has_org <- py_contains d "organization";;
        if has_org then
          org <- py_getitem d "organization";;
          if truthy org then py_getitem org "id" else Err NotFoundError
        else Err NotFoundError
      else Err NotFoundError
  end.

(** [fetch_contributions]: one organisation lookup, then the loop. The
    trace lists the [prCursor] of every contributions query issued. *)
Definition fetch_contributions (org_resp : HttpResponse) (rs : list Response)
  : list (option string) * Outcome :=
  match get_organization_id org_resp with
  | Err e => ([], Failed e)
  | Ok _ => fetch rs
  end.

(** ** Vocabulary for the statements *)

(** A successful response carrying one page. *)
Definition ok_page (cd : Collection) : Response := HttpOk (mkBody None (Some cd)).

(** A chain of pages as the server declares it: every page but the last
    reports [hasNextPage = true]. *)
Inductive page_chain : list Collection -> Prop :=
| chain_last cd : hasNextPage cd = false -> page_chain [cd]
| chain_cons cd ps : hasNextPage cd = true -> page_chain ps -> page_chain (cd :: ps).

Definition absorb_pair (st : Aggregate * nat) (cd : Collection) : Aggregate * nat :=
  absorb (fst st) (snd st) cd.

(** The aggregate the loop builds from a list of pages. *)
Definition aggregate_of (ps : list Collection) : Aggregate :=
  fst (fold_left absorb_pair ps (empty_aggregate, 0%nat)).

(** The first non-empty list of a sequence of lists ([] when all are). *)
Fixpoint first_nonempty {A} (ls : list (list A)) : list A :=
  match ls with
  | [] => []
  | [] :: ls' => first_nonempty ls'
  | l :: _ => l
  end.

Definition batch_sizes (ps : list Collection) : nat :=
  list_sum (map (fun cd => List.length (pr_nodes cd)) ps).

(** The (repository, commit) pairs in the order the nested loop visits them. *)
Definition commit_entries (agg : Aggregate) : list (CommitRepo * CommitNode) :=
  flat_map (fun repo => map (pair repo) (repo_nodes repo)) (agg_commits agg).

Definition commit_occurrences (agg : Aggregate) : nat :=
  list_sum (map (fun repo => List.length (repo_nodes repo)) (agg_commits agg)).

Definition is_digit (c : ascii) : bool :=
  ((48 <=? nat_of_ascii c) && (nat_of_ascii c <=? 57))%nat.

(** The exact shape [YYYY-MM-DDTHH:MM:SSZ]: twenty characters, ASCII
    digits at the digit positions and the literal separators elsewhere. *)
Definition exact_shape (s : string) : bool :=
  match list_ascii_of_string s with
  | [y1; y2; y3; y4; s1; m1; m2; s2; d1; d2; t; h1; h2; c1; i1; i2; c2; e1; e2; z] =>
      forallb is_digit [y1; y2; y3; y4; m1; m2; d1; d2; h1; h2; i1; i2; e1; e2]
      && Ascii.eqb s1 "-" && Ascii.eqb s2 "-" && Ascii.eqb t "T"
      && Ascii.eqb c1 ":" && Ascii.eqb c2 ":" && Ascii.eqb z "Z"
  | _ => false
  end.

(** The date-time a string of that shape spells. *)
Definition shape_fields (s : string) : fields :=
  match list_ascii_of_string s with
  | [y1; y2; y3; y4; _; m1; m2; _; d1; d2; _; h1; h2; _; i1; i2; _; e1; e2; _] =>
      mkFields (10 * (10 * (10 * digit_val y1 + digit_val y2) + digit_val y3) + digit_val y4)
        (10 * digit_val m1 + digit_val m2) (10 * digit_val d1 + digit_val d2)
        (10 * digit_val h1 + digit_val h2) (10 * digit_val i1 + digit_val i2)
        (10 * digit_val e1 + digit_val e2)
  | _ => mkFields 0 0 0 0 0 0
  end.

Definition timestamps (agg : Aggregate) : list string :=
  (map pr_createdAt (agg_prs agg) ++ map is_createdAt (agg_issues agg)
   ++ map (fun rc => cm_occurredAt (snd rc)) (commit_entries agg))%list.

(** What [get_organization_id] refuses with "not found", for a response
    object whose ["data"], if present, is an object: ["data"] absent,
    ["organization"] absent, or an ["organization"] that Python finds
    false ([null], [false], [0], the empty string, [[]] or [{}]). *)
Definition org_missing (kvs : list (string * json)) : Prop :=
  lookup_last "data" kvs = None \/
  exists dk, lookup_last "data" kvs = Some (JObj dk) /\
    (lookup_last "organization" dk = None \/
     exists o, lookup_last "organization" dk = Some o /\ truthy o = false).


(** ** [process_contributions] over Python's object graph

    The claims about [normalize] above read the aggregate as a value. This
    part follows the Python objects themselves, to state what a call does to
    the objects it is given. A value is [None], a [bool], an [int], a [str]
    or a reference to a [list] or [dict] in the heap; these are the values
    [response.json()] and the code build ([float] is left out). A [str] is a
    sequence of 8-bit characters, each read as a code point below 256. *)
Module PyHeap.

Inductive val :=
| VNone
| VBool (b : bool)
| VInt (z : Z)
| VStr (s : string)
| VRef (l : nat).

Inductive obj :=
| OList (xs : list val)
| ODict (kvs : list (string * val)).

Definition heap := list obj.

(** A dict holds each key once; [d[k]] finds it. *)
Fixpoint find_key (k : string) (kvs : list (string * val)) : option val :=
  match kvs with
  | [] => None
  | (k', v) :: rest => if String.eqb k k' then Some v else find_key k rest
  end.

(** [v[k]] for a [str] key [k]: [KeyError] on a dict without [k], and
    [TypeError] on a list, a [str] or a scalar. *)
Definition getitem (h : heap) (v : val) (k : string) : result val :=
  match v with
  | VRef l =>
      match nth_error h l with
      | Some (ODict kvs) =>
          match find_key k kvs with Some x => Ok x | None => Err KeyError end
      | _ => Err TypeError
      end
  | _ => Err TypeError
  end.

(** The elements a [for] loop visits: a list's items, a dict's keys, a
    [str]'s characters; [TypeError] for a scalar. *)
Definition py_iter (h : heap) (v : val) : result (list val) :=
  match v with
  | VRef l =>
      match nth_error h l with
      | Some (OList xs) => Ok xs
      | Some (ODict kvs) => Ok (map (fun kv => VStr (fst kv)) kvs)
      | None => Err TypeError
      end
  | VStr s => Ok (map (fun c => VStr (String c EmptyString)) (list_ascii_of_string s))
  | _ => Err TypeError
  end.

(** [repr] of a [str]: single quotes unless the text has a single quote and
    no double quote; backslash and the quote escaped; [\t], [\n], [\r];
    [\xhh] for the other characters that are not printable (below 0x20,
    0x7f to 0xa0, and 0xad). *)
Definition backslash : ascii := ascii_of_nat 92.
Definition squote : ascii := ascii_of_nat 39.
Definition dquote : ascii := ascii_of_nat 34.

Definition hex_digit (n : nat) : ascii :=
  if (n <? 10)%nat then ascii_of_nat (48 + n) else ascii_of_nat (87 + n).

Definition repr_char (q c : ascii) : string :=
  let n := nat_of_ascii c in
  if Ascii.eqb c q || Ascii.eqb c backslash then String backslash (String c EmptyString)
  else if (n =? 9)%nat then String backslash "t"
  else if (n =? 10)%nat then String backslash "n"
  else if (n =? 13)%nat then String backslash "r"
  else if ((n <? 32) || ((127 <=? n) && (n <=? 160)) || (n =? 173))%nat then
    String backslash (String "x" (String (hex_digit (n / 16))
                                   (String (hex_digit (n mod 16)) EmptyString)))
  else String c EmptyString.

Definition str_repr (s : string) : string :=
  let cs := list_ascii_of_string s in
  let q := if existsb (Ascii.eqb squote) cs && negb (existsb (Ascii.eqb dquote) cs)
           then dquote else squote in
  String q (fold_right (fun c acc => repr_char q c ++ acc) (String q EmptyString) cs).

(** [repr] of a value. A list or dict already being printed further up
    prints as [[...]] or [{...}] (CPython's [Py_ReprEnter]); [vis] holds
    those locations. The fuel bounds the depth; [py_str] gives one more than
    the heap's size, which no path without repetition exceeds. *)
Fixpoint repr_at (fuel : nat) (h : heap) (vis : list nat) (v : val) : string :=
  match v with
  | VNone => "None"
  | VBool b => if b then "True" else "False"
  | VInt z => z_to_str z
  | VStr s => str_repr s
  | VRef l =>
      match fuel, nth_error h l with
      | S f, Some (OList xs) =>
          if existsb (Nat.eqb l) vis then "[...]"
          else "[" ++ String.concat ", " (map (repr_at f h (l :: vis)) xs) ++ "]"
      | S f, Some (ODict kvs) =>
          if existsb (Nat.eqb l) vis then "{...}"
          else "{" ++ String.concat ", "
                 (map (fun kv => str_repr (fst kv) ++ ": " ++ repr_at f h (l :: vis) (snd kv))
                    kvs) ++ "}"
      | _, _ => EmptyString
      end
  end.

(** [str(v)], which an f-string replacement field without a format spec
    produces. *)
Definition py_str (h : heap) (v : val) : string :=
  match v with
  | VStr s => s
  | _ => repr_at (S (List.length h)) h [] v
  end.

(** [datetime.strptime(v, "%Y-%m-%dT%H:%M:%SZ").strftime("%Y-%m-%d")]:
    [TypeError] when [v] is not a [str]. *)
Definition py_day (v : val) : result val :=
  match v with
  | VStr s => d <- to_day s;; Ok (VStr d)
  | _ => Err TypeError
  end.

(** The dict displays of lines 157-164, 168-175 and 180-187, key by key in
    evaluation order. *)
Definition pr_fields (h : heap) (pr : val) : result (list (string * val)) :=
  p1 <- getitem h pr "pullRequest";; title <- getitem h p1 "title";;
  p2 <- getitem h pr "pullRequest";; r2 <- getitem h p2 "repository";;
  repo <- getitem h r2 "name";;
  p3 <- getitem h pr "pullRequest";; status <- getitem h p3 "state";;
  p4 <- getitem h pr "pullRequest";; url <- getitem h p4 "url";;
  p5 <- getitem h pr "pullRequest";; created <- getitem h p5 "createdAt";;
  date <- py_day created;;
  Ok [("type", VStr "Pull Request"); ("title", title); ("repository", repo);
      ("status", status); ("url", url); ("date", date)].

Definition issue_fields (h : heap) (issue : val) : result (list (string * val)) :=
  i1 <- getitem h issue "issue";; title <- getitem h i1 "title";;
  i2 <- getitem h issue "issue";; r2 <- getitem h i2 "repository";;
  repo <- getitem h r2 "name";;
  i3 <- getitem h issue "issue";; status <- getitem h i3 "state";;
  i4 <- getitem h issue "issue";; url <- getitem h i4 "url";;
  i5 <- getitem h issue "issue";; created <- getitem h i5 "createdAt";;
  date <- py_day created;;
  Ok [("type", VStr "Issue"); ("title", title); ("repository", repo);
      ("status", status); ("url", url); ("date", date)].

Definition commit_fields (h : heap) (repo commit : val) : result (list (string * val)) :=
  count <- getitem h commit "commitCount";;
  r1 <- getitem h repo "repository";; name1 <- getitem h r1 "name";;
  r2 <- getitem h repo "repository";; name2 <- getitem h r2 "name";;
  url <- getitem h commit "url";;
  occurred <- getitem h commit "occurredAt";; date <- py_day occurred;;
  Ok [("type", VStr "Commit");
      ("title", VStr (py_str h count ++ " commits to " ++ py_str h name1));
      ("repository", name2); ("status", VStr "Committed"); ("url", url);
      ("date", date)].

(** Heap-passing computations that may raise. *)
Definition M (A : Type) := heap -> result A * heap.

Definition mret {A} (a : A) : M A := fun h => (Ok a, h).

Definition mbind {A B} (m : M A) (k : A -> M B) : M B :=
  fun h => match m h with
           | (Ok a, h') => k a h'
           | (Err e, h') => (Err e, h')
           end.

Notation "x <-- m ;;; k" := (mbind m (fun x => k))
  (at level 61, m at next level, right associativity).

Definition read {A} (f : heap -> result A) : M A := fun h => (f h, h).

(** A new object goes to a fresh location. *)
Definition alloc (o : obj) : M nat := fun h => (Ok (List.length h), (h ++ [o])%list).

Fixpoint set_nth {A} (n : nat) (x : A) (l : list A) : list A :=
  match l, n with
  | [], _ => []
  | _ :: rest, O => x :: rest
  | y :: rest, S n' => y :: set_nth n' x rest
  end.

(** [xs.append(v)] for the list at location [l]. *)
Definition list_append (l : nat) (v : val) : M unit :=
  fun h => match nth_error h l with
           | Some (OList xs) => (Ok tt, set_nth l (OList (xs ++ [v])%list) h)
           | _ => (Err TypeError, h)
           end.

(** A [for] loop over the elements the iterable had when the loop began;
    the loops below append only to [contributions], which none of them
    iterates, so this is the list Python's iterator visits. *)
Fixpoint for_each {A} (xs : list A) (body : A -> M unit) : M unit :=
  match xs with
  | [] => mret tt
  | x :: rest => _ <-- body x;;; for_each rest body
  end.

(** [contributions.append({...})]: the display's values, then the new
    dict, then the call. *)
Definition add_record (m : nat) (fields : heap -> result (list (string * val))) : M unit :=
  fs <-- read fields;;;
  r <-- alloc (ODict fs);;;
  list_append m (VRef r).

(** The loop of lines 156-164. *)
Definition pr_loop (m : nat) (collection : val) : M unit :=
  prs <-- read (fun h =>
    p <- getitem h collection "pullRequestContributions";;
    n <- getitem h p "nodes";; py_iter h n);;;
  for_each prs (fun pr => add_record m (fun h => pr_fields h pr)).

(** The loop of lines 167-175. *)
Definition issue_loop (m : nat) (collection : val) : M unit :=
  issues <-- read (fun h =>
    i <- getitem h collection "issueContributions";;
    n <- getitem h i "nodes";; py_iter h n);;;
  for_each issues (fun issue => add_record m (fun h => issue_fields h issue)).

(** The nested loops of lines 178-187. *)
Definition commit_loop (m : nat) (collection : val) : M unit :=
  repos <-- read (fun h =>
    c <- getitem h collection "commitContributionsByRepository";; py_iter h c);;;
  for_each repos (fun repo =>
    commits <-- read (fun h =>
      c <- getitem h repo "contributions";;
      n <- getitem h c "nodes";; py_iter h n);;;
    for_each commits (fun commit =>
      add_record m (fun h => commit_fields h repo commit))).

(** Lines 153-187, appending to the list at [m]. *)
Definition collect (m : nat) (data : val) : M unit :=
  collection <-- read (fun h =>
    d <- getitem h data "data";; u <- getitem h d "user";;
    getitem h u "contributionsCollection");;;
  _ <-- pr_loop m collection;;;
  _ <-- issue_loop m collection;;;
  commit_loop m collection.

(** [key=lambda x: x["date"]]; every key here is a [str] from [strftime]. *)
Definition date_key (h : heap) (x : val) : result (string * val) :=
  d <- getitem h x "date";;
  match d with
  | VStr s => Ok (s, x)
  | _ => Err TypeError
  end.

(** [sorted(contributions, key=..., reverse=True)]: copy the list, compute
    the keys, sort stably in descending order into a new list. *)
Definition sorted_by_date (m : nat) : M val :=
  xs <-- read (fun h => py_iter h (VRef m));;;
  keyed <-- read (fun h => mapM (date_key h) xs);;;
  r <-- alloc (OList (map snd (sorted_desc fst keyed)));;;
  mret (VRef r).

Definition process_contributions (data : val) : M val :=
  m <-- alloc (OList []);;;
  _ <-- collect m data;;;
  sorted_by_date m.

(** The records of a list of dicts, as the caller reads them back. *)
Definition record_view (h : heap) (v : val) : result (list (string * val)) :=
  match v with
  | VRef l => match nth_error h l with Some (ODict kvs) => Ok kvs | _ => Err TypeError end
  | _ => Err TypeError
  end.

Definition seq_view (h : heap) (v : val) : result (list (list (string * val))) :=
  match v with
  | VRef l => match nth_error h l with
              | Some (OList xs) => mapM (record_view h) xs
              | _ => Err TypeError
              end
  | _ => Err TypeError
  end.

(** Objects refer only to objects of the heap. *)
Definition closed_valb (n : nat) (v : val) : bool :=
  match v with VRef l => (l <? n)%nat | _ => true end.

Definition closed_objb (n : nat) (o : obj) : bool :=
  match o with
  | OList xs => forallb (closed_valb n) xs
  | ODict kvs => forallb (fun kv => closed_valb n (snd kv)) kvs
  end.

Definition closed_heapb (h : heap) : bool := forallb (closed_objb (List.length h)) h.

(** The records a call builds, read off the heap it is given, and their
    order after the sort. *)
Definition pr_part (h : heap) (collection : val) : result (list (list (string * val))) :=
  prs <- (p <- getitem h collection "pullRequestContributions";;
          n <- getitem h p "nodes";; py_iter h n);;
  mapM (pr_fields h) prs.

Definition issue_part (h : heap) (collection : val) : result (list (list (string * val))) :=
  issues <- (i <- getitem h collection "issueContributions";;
             n <- getitem h i "nodes";; py_iter h n);;
  mapM (issue_fields h) issues.

Definition commit_part (h : heap) (collection : val) : result (list (list (string * val))) :=
  repos <- (c <- getitem h collection "commitContributionsByRepository";; py_iter h c);;
  cs <- mapM (fun repo =>
          commits <- (c <- getitem h repo "contributions";;
                      n <- getitem h c "nodes";; py_iter h n);;
          mapM (commit_fields h repo) commits) repos;;
  Ok (List.concat cs).

Definition records_of (h : heap) (data : val) : result (list (list (string * val))) :=
  collection <- (d <- getitem h data "data";; u <- getitem h d "user";;
                 getitem h u "contributionsCollection");;
  ps <- pr_part h collection;;
  is <- issue_part h collection;;
  cs <- commit_part h collection;;
  Ok (ps ++ is ++ cs)%list.

Definition field_date (fs : list (string * val)) : string :=
  match find_key "date" fs with Some (VStr s) => s | _ => EmptyString end.

Definition normalize_heap (h : heap) (data : val) : result (list (list (string * val))) :=
  rs <- records_of h data;; Ok (sorted_desc field_date rs).

(** Vocabulary for the statements: the heap while the loops run, what a
    loop appends, and a record that has a ["date"] string. *)

(** The heap while the loops run: the input [H], the list [contributions]
    at [length H] holding references to the records, then the records'
    dicts in order. *)
Definition st (H : heap) (gs : list (list (string * val))) : heap :=
  (H ++ OList (map VRef (seq (S (List.length H)) (List.length gs))) :: map ODict gs)%list.

(** [body] appends the records [gs] when [out = Ok gs], and raises [e]
    when [out = Err e]. *)
Definition emits (H : heap) (body : M unit) (out : result (list (list (string * val)))) : Prop :=
  forall fs, match out with
             | Ok gs => body (st H fs) = (Ok tt, st H (fs ++ gs)%list)
             | Err e => exists fs', body (st H fs) = (Err e, st H fs')
             end.

Definition has_date (g : list (string * val)) : Prop :=
  exists s, find_key "date" g = Some (VStr s).

End PyHeap.

(** ** [export_to_markdown] (lines 191-232)

    The file is opened with mode ["w"]: when every call succeeds it ends up
    holding exactly what the calls to [file.write] wrote, in order. The file
    system maps a file name to its contents. *)
Definition nl : string := String (ascii_of_nat 10) EmptyString.

Definition concat_strings (ws : list string) : string :=
  fold_right String.append EmptyString ws.

Definition files := string -> option string.

Definition write_file (fs : files) (name contents : string) : files :=
  fun n => if String.eqb n name then Some contents else fs n.

(** [[c for c in contributions if c["type"] == label]] *)
Definition kind_items (label : string) (contributions : list ContributionRecord)
  : list ContributionRecord :=
  filter (fun c => String.eqb (type_label (rec_type c)) label) contributions.

Definition pr_count (contributions : list ContributionRecord) : nat :=
  List.length (kind_items "Pull Request" contributions).

Definition issue_count (contributions : list ContributionRecord) : nat :=
  List.length (kind_items "Issue" contributions).

Definition commit_count (contributions : list ContributionRecord) : nat :=
  List.length (kind_items "Commit" contributions).

(** [f"- [{pr['title']}]({pr['url']}) - {pr['status']} ({pr['date']})\n"],
    the line of a pull request and of an issue. *)
Definition item_line (c : ContributionRecord) : string :=
  "- [" ++ rec_title c ++ "](" ++ rec_url c ++ ") - " ++ rec_status c
  ++ " (" ++ rec_date c ++ ")" ++ nl.

(** [f"- [{commit['title']}]({commit['url']}) - {commit['date']}\n"] *)
Definition commit_line (c : ContributionRecord) : string :=
  "- [" ++ rec_title c ++ "](" ++ rec_url c ++ ") - " ++ rec_date c ++ nl.

(** [if items: write heading; for item in items: write line; write "\n"] *)
Definition section_writes (heading : string) (line : ContributionRecord -> string)
  (items : list ContributionRecord) : list string :=
  match items with
  | [] => []
  | _ :: _ =>
      let title := "### " ++ heading ++ nl ++ nl in
      (title :: map line items ++ [nl])%list
  end.

(** The successive arguments of [file.write]. *)
Definition export_writes (contributions : list ContributionRecord)
  (username organization : string) : list string :=
  List.app
    ["# GitHub Contributions for " ++ username ++ " in " ++ organization ++ nl ++ nl;
     "## Summary" ++ nl;
     "- Total Pull Requests: " ++ digits_of_nat (pr_count contributions) ++ nl;
     "- Total Issues: " ++ digits_of_nat (issue_count contributions) ++ nl;
     "- Total Commits: " ++ digits_of_nat (commit_count contributions) ++ nl ++ nl;
     "## Detailed Contributions" ++ nl ++ nl]
    (List.app (section_writes "Pull Requests" item_line (kind_items "Pull Request" contributions))
      (List.app (section_writes "Issues" item_line (kind_items "Issue" contributions))
         (section_writes "Commits" commit_line (kind_items "Commit" contributions)))).

(** What the operating system does to the writes, which the program does
    not control:
    - [NoFault]: [open], every [file.write] and the final flush succeed;
    - [OpenFault e]: [open(filename, "w")] raises [e] (e.g. [PermissionError]),
      the file is left as it was;
    - [WriteFault k n e]: the file is opened (and truncated); the write number
      [k] (counting from 0) raises [e], or, when [k] is past the last write,
      the flush on leaving the [with] block does; of the text the earlier
      writes handed over, the first [n] characters reached the file. *)
Inductive IoFault :=
| NoFault
| OpenFault (e : Error)
| WriteFault (k n : nat) (e : Error).

Definition export_to_markdown (contributions : list ContributionRecord)
  (username organization filename : string) (fs : files) (fault : IoFault)
  : result string * files :=
  let writes := export_writes contributions username organization in
  match fault with
  | NoFault => (Ok filename, write_file fs filename (concat_strings writes))
  | OpenFault e => (Err e, fs)
  | WriteFault k n e =>
      (Err e, write_file fs filename (substring 0 n (concat_strings (firstn k writes))))
  end.

(** ** What the program prints (lines 129, 136, 148, 241, 245, 247)

    One constructor per [print] call, with the values it formats. The text
    of [str(e)] depends on the exception object, which the model does not
    carry: [msg_text] takes it as an argument. *)
Inductive Msg :=
| Fetching (username organization : string)
| ExpectedTotal (n : Z)
| FetchedSoFar (n : nat)
| TotalFetched (n : nat)
| Exported (filename : string)
| ErrorMsg (e : Error).

Definition msg_text (str_e : Error -> string) (m : Msg) : string :=
  match m with
  | Fetching u o => "Fetching contributions for " ++ u ++ " in " ++ o ++ "..."
  | ExpectedTotal n => "Expected total PRs: " ++ z_to_str n
  | FetchedSoFar n => "Fetched " ++ digits_of_nat n ++ " PRs so far..."
  | TotalFetched n => "Total PRs fetched: " ++ digits_of_nat n
  | Exported f => "Successfully exported contributions to " ++ f
  | ErrorMsg e => "Error: " ++ str_e e
  end.

(** The pagination loop of [fetch_contributions] with its [print]s: on a
    page that passed the checks, ["Expected total PRs"] while
    [total_prs_fetched == 0] (lines 128-129), then ["Fetched n PRs so
    far..."] (line 136); ["Total PRs fetched"] once the loop has ended
    (line 148). *)
Fixpoint fetch_loop_io (cursor : option string) (acc : Aggregate) (total : nat)
  (rs : list Response) : list (option string) * Outcome * list Msg :=
  match rs with
  | [] => ([cursor], Pending, [])
  | r :: rs' =>
      let '(tr, out, log) :=
        match r with
        | HttpFailure => ([], Failed TransportError, [])
        | HttpOk b =>
            match errors b with
            | Some _ => ([], Failed ApiError, [])
            | None =>
                match page b with
                | None => ([], Failed TypeError, [])
                | Some cd =>
                    let expected :=
                      if Nat.eqb total 0
                      then [ExpectedTotal (totalPullRequestContributions cd)] else [] in
                    let '(acc', total') := absorb acc total cd in
                    let here := (expected ++ [FetchedSoFar total'])%list in
                    if hasNextPage cd
                    then let '(tr', out', log') := fetch_loop_io (endCursor cd) acc' total' rs' in
                         (tr', out', (here ++ log')%list)
                    else ([], Done acc', (here ++ [TotalFetched total'])%list)
                end
            end
        end in
      (cursor :: tr, out, log)
  end.

Definition fetch_contributions_io (org_resp : HttpResponse) (rs : list Response)
  : list (option string) * Outcome * list Msg :=
  match get_organization_id org_resp with
  | Err e => ([], Failed e, [])
  | Ok _ => fetch_loop_io None empty_aggregate 0 rs
  end.

(** ** [main] (lines 234-248)

    [Waiting]: the server has not answered the request the loop issued. An
    exception is printed and raised again ([Raised]). *)
Inductive MainOutcome :=
| Finished
| Raised (e : Error)
| Waiting.

Definition main (username organization : string) (org_resp : HttpResponse)
  (rs : list Response) (fs : files) (fault : IoFault) : list Msg * MainOutcome * files :=
  let start := Fetching username organization in
  match fetch_contributions_io org_resp rs with
  | (_, Pending, log) => (start :: log, Waiting, fs)
  | (_, Failed e, log) => (((start :: log) ++ [ErrorMsg e])%list, Raised e, fs)
  | (_, Done raw_data, log) =>
      match normalize raw_data with
      | Err e => (((start :: log) ++ [ErrorMsg e])%list, Raised e, fs)
      | Ok contributions =>
          match export_to_markdown contributions username organization
                  "contributions.md" fs fault with
          | (Ok output_file, fs') =>
              (((start :: log) ++ [Exported output_file])%list, Finished, fs')
          | (Err e, fs') => (((start :: log) ++ [ErrorMsg e])%list, Raised e, fs')
          end
      end
  end.

(** ** Vocabulary for the statements on output *)

(** The numbers of the ["Expected total PRs"] and ["Fetched"] lines. *)
Definition expected_totals (log : list Msg) : list Z :=
  flat_map (fun m => match m with ExpectedTotal n => [n] | _ => [] end) log.

Definition fetched_counts (log : list Msg) : list nat :=
  flat_map (fun m => match m with FetchedSoFar n => [n] | _ => [] end) log.

(** The running totals [acc + x1], [acc + x1 + x2], ... *)
Fixpoint prefix_sums (acc : nat) (l : list nat) : list nat :=
  match l with
  | [] => []
  | x :: l' => (acc + x)%nat :: prefix_sums (acc + x) l'
  end.

(** The pages up to and including the first one with a pull request. *)
Fixpoint upto_first_batch (ps : list Collection) : list Collection :=
  match ps with
  | [] => []
  | cd :: ps' => cd :: match pr_nodes cd with
                       | [] => upto_first_batch ps'
                       | _ :: _ => []
                       end
  end.

(** ** Sample inputs *)

Module Samples.

Definition pr_a := mkPullRequest "Fix" "u1" "MERGED" "r" "2024-01-10T00:00:00Z" true true.
Definition pr_b := mkPullRequest "Add" "u2" "OPEN" "r" "2024-01-05T00:00:00Z" false false.
Definition issue_a := mkIssue "Bug" "u3" "OPEN" "r" "2024-01-08T00:00:00Z".

(** A first page with no issue and no commit batch, then a last page
    with one issue. *)
Definition page1 := mkCollection 2 true (Some "c1") [pr_a] [] [].
Definition page2 := mkCollection 2 false None [pr_b] [issue_a] [].

Definition pr_new := mkPullRequest "Fix" "u1" "MERGED" "r" "2024-01-10T09:00:00Z" true true.
Definition pr_old := mkPullRequest "Add" "u2" "OPEN" "r" "2024-01-05T00:00:00Z" false false.
Definition issue_mid := mkIssue "Bug" "u3" "OPEN" "r" "2024-01-08T12:30:00Z".
Definition repo_r := mkCommitRepo "r"
  [mkCommitNode 3 "2024-01-08T00:00:00Z" "/c1" "u4"; mkCommitNode 1 "2024-01-02T00:00:00Z" "/c2" "u5"].

(** Two pull requests, one issue, one repository with two occurrences. *)
Definition sample := mkAggregate [pr_new; pr_old] [issue_mid] [repo_r].

Definition pr_month13 :=
  mkPullRequest "Fix" "u1" "OPEN" "r" "2024-13-01T00:00:00Z" false false.

(** A single pull request whose timestamp has the exact shape but month 13. *)
Definition month13 := mkAggregate [pr_month13] [] [].

(** The object graph [response.json()] builds for a page with one pull
    request, one issue and one repository with one commit occurrence; the
    pull request, the issue and the repository entry share the dict of the
    repository. *)
Definition sample_heap : PyHeap.heap := [
  PyHeap.ODict [("data", PyHeap.VRef 1)];
  PyHeap.ODict [("user", PyHeap.VRef 2)];
  PyHeap.ODict [("contributionsCollection", PyHeap.VRef 3)];
  PyHeap.ODict [("pullRequestContributions", PyHeap.VRef 4); ("issueContributions", PyHeap.VRef 7);
         ("commitContributionsByRepository", PyHeap.VRef 10)];
  PyHeap.ODict [("nodes", PyHeap.VRef 5)];
  PyHeap.OList [PyHeap.VRef 6];
  PyHeap.ODict [("pullRequest", PyHeap.VRef 12)];
  PyHeap.ODict [("nodes", PyHeap.VRef 8)];
  PyHeap.OList [PyHeap.VRef 9];
  PyHeap.ODict [("issue", PyHeap.VRef 14)];
  PyHeap.OList [PyHeap.VRef 11];
  PyHeap.ODict [("repository", PyHeap.VRef 13); ("contributions", PyHeap.VRef 15)];
  PyHeap.ODict [("title", PyHeap.VStr "Fix"); ("url", PyHeap.VStr "u1"); ("state", PyHeap.VStr "MERGED");
         ("repository", PyHeap.VRef 13); ("createdAt", PyHeap.VStr "2024-01-10T09:00:00Z")];
  PyHeap.ODict [("name", PyHeap.VStr "r")];
  PyHeap.ODict [("title", PyHeap.VStr "Bug"); ("url", PyHeap.VStr "u3"); ("state", PyHeap.VStr "OPEN");
         ("repository", PyHeap.VRef 13); ("createdAt", PyHeap.VStr "2024-01-08T12:30:00Z")];
  PyHeap.ODict [("nodes", PyHeap.VRef 16)];
  PyHeap.OList [PyHeap.VRef 17];
  PyHeap.ODict [("commitCount", PyHeap.VInt 3); ("occurredAt", PyHeap.VStr "2024-01-12T00:00:00Z");
         ("resourcePath", PyHeap.VStr "/c1"); ("url", PyHeap.VStr "u4")]
]%list.

(** A first page with no pull request, before [page1] and [page2]. *)
Definition page_empty := mkCollection 2 true (Some "c0") [] [] [].

(** An organisation lookup that succeeds. *)
Definition org_ok : HttpResponse :=
  HttpJson (JObj [("data", JObj [("organization", JObj [("id", JStr "O_1")])])]).

(** No file yet. *)
Definition no_files : files := fun _ => None.

End Samples.

(** * Proofs *)

(** ** Lemmas on the pagination loop *)

Lemma fetch_loop_done_inv : forall rs c acc t tr agg,
  fetch_loop c acc t rs = (tr, Done agg) ->
  exists ps rest,
    rs = (map ok_page ps ++ rest)%list /\ page_chain ps /\
    List.length tr = List.length ps /\
    agg = fst (fold_left absorb_pair ps (acc, t)).
Proof.
  induction rs as [|r rs IH]; intros c acc t tr agg H; simpl in H.
  - discriminate H.
  - destruct r as [|[[errs|] [cd|]]]; simpl in H; try discriminate H.
    destruct (hasNextPage cd) eqn:Hn.
    + destruct (fetch_loop (endCursor cd) _ _ rs) as [tr' out] eqn:Hl.
      injection H as <- ->.
      destruct (IH _ _ _ _ _ Hl) as (ps & rest & -> & Hc & Hlen & ->).
      exists (cd :: ps), rest. repeat split.
      * constructor; assumption.
      * simpl. now rewrite Hlen.
    + injection H as <- <-.
      exists [cd], rs. repeat split.
      constructor; assumption.
Qed.

Lemma fold_absorb_prs : forall ps acc t,
  agg_prs (fst (fold_left absorb_pair ps (acc, t)))
  = (agg_prs acc ++ List.concat (map pr_nodes ps))%list.
Proof.
  induction ps as [|cd ps IH]; intros acc t; simpl.
  - now rewrite app_nil_r.
  - rewrite (surjective_pairing (absorb_pair (acc, t) cd)), IH.
    simpl. now rewrite app_assoc.
Qed.

Lemma fold_absorb_issues : forall ps acc t,
  agg_issues (fst (fold_left absorb_pair ps (acc, t)))
  = match agg_issues acc with
    | [] => first_nonempty (map issue_nodes ps)
    | l => l
    end.
Proof.
  induction ps as [|cd ps IH]; intros acc t; simpl.
  - now destruct (agg_issues acc).
  - rewrite (surjective_pairing (absorb_pair (acc, t) cd)), IH.
    simpl.
    destruct (agg_issues acc); [|reflexivity].
    now destruct (issue_nodes cd).
Qed.

Lemma fold_absorb_commits : forall ps acc t,
  agg_commits (fst (fold_left absorb_pair ps (acc, t)))
  = match agg_commits acc with
    | [] => first_nonempty (map commit_repos ps)
    | l => l
    end.
Proof.
  induction ps as [|cd ps IH]; intros acc t; simpl.
  - now destruct (agg_commits acc).
  - rewrite (surjective_pairing (absorb_pair (acc, t) cd)), IH.
    simpl.
    destruct (agg_commits acc); [|reflexivity].
    now destruct (commit_repos cd).
Qed.

Lemma fetch_chain : forall ps rest c acc t,
  page_chain ps ->
  exists tr, fetch_loop c acc t (map ok_page ps ++ rest)%list
             = (tr, Done (fst (fold_left absorb_pair ps (acc, t)))).
Proof.
  intros ps rest c acc t Hc. revert c acc t.
  induction Hc as [cd Hn|cd ps Hn Hc IH]; intros c acc t; simpl.
  - rewrite Hn. eexists. reflexivity.
  - rewrite Hn.
    destruct (IH (endCursor cd) (fst (absorb acc t cd)) (snd (absorb acc t cd)))
      as [tr Htr].
    simpl in Htr. rewrite Htr. eexists. reflexivity.
Qed.

Lemma fetch_loop_trace_head : forall rs c acc t,
  exists tr', fst (fetch_loop c acc t rs) = c :: tr'.
Proof.
  destruct rs as [|r rs]; intros c acc t; simpl.
  - eexists; reflexivity.
  - destruct (match r with
              | HttpFailure => _
              | HttpOk b => _
              end) as [tr out]. eexists; reflexivity.
Qed.

Lemma fetch_loop_cursor : forall rs c acc t tr out k b cd,
  fetch_loop c acc t rs = (tr, out) ->
  (k < List.length tr)%nat ->
  nth_error rs k = Some (HttpOk b) -> errors b = None -> page b = Some cd ->
  (hasNextPage cd = true -> nth_error tr (S k) = Some (endCursor cd)) /\
  (hasNextPage cd = false -> List.length tr = S k /\ exists agg, out = Done agg).
Proof.
  induction rs as [|r rs IH]; intros c acc t tr out k b cd H Hk Hr He Hp.
  - destruct k; discriminate Hr.
  - simpl in H. destruct k as [|k].
    + simpl in Hr. injection Hr as ->. rewrite He, Hp in H.
      destruct (hasNextPage cd) eqn:Hn.
      * destruct (fetch_loop (endCursor cd) _ _ rs) as [tr' out'] eqn:Hl.
        injection H as <- <-.
        destruct (fetch_loop_trace_head rs (endCursor cd)
                   (fst (absorb acc t cd)) (snd (absorb acc t cd))) as [tr'' Ht].
        simpl in Ht. rewrite Hl in Ht. simpl in Ht. subst tr'.
        split; [reflexivity | discriminate].
      * injection H as <- <-. split; [discriminate|].
        split; [reflexivity | eexists; reflexivity].
    + simpl in Hr.
      destruct r as [|[[errs|] [cd'|]]]; simpl in H;
        try (injection H as <- <-; simpl in Hk; lia).
      destruct (hasNextPage cd') eqn:Hn.
      * destruct (fetch_loop (endCursor cd') _ _ rs) as [tr' out'] eqn:Hl.
        injection H as <- <-. simpl in Hk.
        destruct (IH _ _ _ _ _ k b cd Hl) as [H1 H2]; [lia | assumption..|].
        split; [exact H1|].
        intros Hf. destruct (H2 Hf) as [Hlen Hout].
        simpl. rewrite Hlen. auto.
      * injection H as <- <-. simpl in Hk. lia.
Qed.

Lemma fetch_loop_api_error : forall rs c acc t tr,
  fetch_loop c acc t rs = (tr, Failed ApiError) ->
  exists k b, nth_error rs k = Some (HttpOk b) /\ errors b <> None /\
              List.length tr = S k.
Proof.
  induction rs as [|r rs IH]; intros c acc t tr H; simpl in H.
  - discriminate H.
  - destruct r as [|[[errs|] [cd|]]]; simpl in H; try discriminate H.
    + injection H as <-. exists 0%nat, (mkBody (Some errs) (Some cd)).
      repeat split; discriminate.
    + injection H as <-. exists 0%nat, (mkBody (Some errs) None).
      repeat split; discriminate.
    + destruct (hasNextPage cd).
      * destruct (fetch_loop (endCursor cd) _ _ rs) as [tr' out'] eqn:Hl.
        injection H as <- ->.
        destruct (IH _ _ _ _ Hl) as (k & b & Hk & Hb & Hlen).
        exists (S k), b. simpl. rewrite Hlen. auto.
      * discriminate H.
Qed.

Lemma fetch_loop_reaches_error : forall ps b rest c acc t,
  Forall (fun cd => hasNextPage cd = true) ps -> errors b <> None ->
  exists tr, fetch_loop c acc t (map ok_page ps ++ HttpOk b :: rest)%list
             = (tr, Failed ApiError) /\ List.length tr = S (List.length ps).
Proof.
  induction ps as [|cd ps IH]; intros b rest c acc t Hf He; simpl.
  - destruct (errors b) as [errs|]; [|congruence].
    eexists; split; reflexivity.
  - inversion Hf as [|? ? Hn Hf']; subst. rewrite Hn.
    destruct (IH b rest (endCursor cd) (fst (absorb acc t cd))
                (snd (absorb acc t cd)) Hf' He) as (tr & Htr & Hlen).
    simpl in Htr. rewrite Htr. eexists; split; [reflexivity|].
    simpl. now rewrite Hlen.
Qed.

(** ** Claims about the pagination loop *)

Module Fetch.
Import Samples.

(** C1 (counterexample): the issue list of the aggregate is not the first
    page's issue list when the first page has no issue and a later page
    has one. *)
Lemma issues_not_first_page :
  exists tr agg,
    fetch [ok_page page1; ok_page page2] = (tr, Done agg) /\
    issue_nodes page1 = [] /\
    agg_issues agg = [issue_a] /\ agg_issues agg <> issue_nodes page1.
Proof.
  eexists _, _. split; [reflexivity|]. repeat split. discriminate.
Qed.

(** C1 (amended): for every successful fetch, the aggregate's issue list
    and commit list are the first non-empty issue list, resp. commit list,
    among the pages received (so the first page's lists whenever these are
    non-empty); later pages never append to them, duplicate them, or
    replace a non-empty one. *)
Theorem issues_commits_first_nonempty : forall rs tr agg,
  fetch rs = (tr, Done agg) ->
  exists ps rest,
    rs = (map ok_page ps ++ rest)%list /\ page_chain ps /\
    agg_issues agg = first_nonempty (map issue_nodes ps) /\
    agg_commits agg = first_nonempty (map commit_repos ps).
Proof.
  intros rs tr agg H.
  destruct (fetch_loop_done_inv _ _ _ _ _ _ H) as (ps & rest & Hrs & Hc & _ & ->).
  exists ps, rest. repeat split; try assumption.
  - apply fold_absorb_issues.
  - apply fold_absorb_commits.
Qed.

Lemma issues_commits_first_nonempty_witness :
  exists ps rest,
    [ok_page page1; ok_page page2] = (map ok_page ps ++ rest)%list /\
    page_chain ps /\
    agg_issues (aggregate_of [page1; page2]) = first_nonempty (map issue_nodes ps) /\
    agg_commits (aggregate_of [page1; page2]) = first_nonempty (map commit_repos ps).
Proof.
  apply (issues_commits_first_nonempty _ [None; Some "c1"]).
  reflexivity.
Defined.

(** C2: for every successful fetch, the pages received form a chain and
    the pull-request list of the aggregate has the sum of their batch
    sizes as its length. *)
Theorem pr_count_is_sum_of_batches : forall rs tr agg,
  fetch rs = (tr, Done agg) ->
  exists ps rest,
    rs = (map ok_page ps ++ rest)%list /\ page_chain ps /\
    List.length tr = List.length ps /\
    List.length (agg_prs agg) = batch_sizes ps.
Proof.
  intros rs tr agg H.
  destruct (fetch_loop_done_inv _ _ _ _ _ _ H) as (ps & rest & Hrs & Hc & Hl & ->).
  exists ps, rest. repeat split; try assumption.
  rewrite fold_absorb_prs. simpl. unfold batch_sizes.
  clear. induction ps as [|cd ps IH]; simpl; [reflexivity|].
  rewrite length_app, IH. reflexivity.
Qed.

Lemma pr_count_is_sum_of_batches_witness :
  exists ps rest,
    [ok_page page1; ok_page page2] = (map ok_page ps ++ rest)%list /\
    page_chain ps /\
    List.length [None; Some "c1"] = List.length ps /\
    List.length (agg_prs (aggregate_of [page1; page2])) = batch_sizes ps.
Proof.
  apply (pr_count_is_sum_of_batches _ [None; Some "c1"]).
  reflexivity.
Defined.

(** C5: when a received page reports [hasNextPage = true], the next request
    carries that page's [endCursor] as [prCursor]; when it reports [false],
    it was the last request and the fetch ends with an aggregate. *)
Theorem next_request_uses_end_cursor : forall rs tr out k b cd,
  fetch rs = (tr, out) ->
  (k < List.length tr)%nat ->
  nth_error rs k = Some (HttpOk b) -> errors b = None -> page b = Some cd ->
  (hasNextPage cd = true -> nth_error tr (S k) = Some (endCursor cd)) /\
  (hasNextPage cd = false -> List.length tr = S k /\ exists agg, out = Done agg).
Proof.
  intros rs tr out k b cd H. exact (fetch_loop_cursor rs _ _ _ tr out k b cd H).
Qed.

Lemma next_request_uses_end_cursor_witness :
  nth_error [None; Some "c1"] 1 = Some (endCursor page1).
Proof.
  apply (proj1 (next_request_uses_end_cursor [ok_page page1; ok_page page2]
                  [None; Some "c1"] (Done (aggregate_of [page1; page2])) 0
                  (mkBody None (Some page1)) page1 eq_refl
                  ltac:(simpl; lia) eq_refl eq_refl eq_refl)).
  reflexivity.
Defined.

(** C7: an [errors] key in the response to any request the loop reaches
    makes the fetch fail with [ApiError]; conversely a fetch that fails with
    [ApiError] received, for its last request, a response with an [errors]
    key. *)
Theorem api_error_iff_errors_key :
  (forall ps b rest,
     Forall (fun cd => hasNextPage cd = true) ps -> errors b <> None ->
     exists tr, fetch (map ok_page ps ++ HttpOk b :: rest)%list = (tr, Failed ApiError)
                /\ List.length tr = S (List.length ps)) /\
  (forall rs tr,
     fetch rs = (tr, Failed ApiError) ->
     exists k b, nth_error rs k = Some (HttpOk b) /\ errors b <> None /\
                 List.length tr = S k).
Proof.
  split.
  - intros ps b rest Hf He. apply fetch_loop_reaches_error; assumption.
  - intros rs tr H. exact (fetch_loop_api_error rs _ _ _ tr H).
Qed.

Lemma api_error_iff_errors_key_witness :
  Forall (fun cd => hasNextPage cd = true) [page1] /\
  exists tr, fetch [ok_page page1; HttpOk (mkBody (Some ["rate limited"]) None)]
             = (tr, Failed ApiError) /\ List.length tr = 2%nat.
Proof.
  split; [repeat constructor|].
  exact (proj1 api_error_iff_errors_key [page1]
           (mkBody (Some ["rate limited"]) None) []
           ltac:(repeat constructor) ltac:(discriminate)).
Defined.

End Fetch.

(** ** Claims about [get_organization_id] *)

Module Resolve.

(** C6 (counterexample): an ["organization"] field that is present and not
    [null], but an empty object, is reported as not found. *)
Lemma empty_org_not_found :
  let kvs := [("data", JObj [("organization", JObj [])])] in
  (exists dk o, lookup_last "data" kvs = Some (JObj dk) /\
                lookup_last "organization" dk = Some o /\ o <> JNull) /\
  get_organization_id (HttpJson (JObj kvs)) = Err NotFoundError.
Proof.
  split; [|reflexivity].
  eexists _, _. split; [reflexivity|]. split; [reflexivity|]. discriminate.
Qed.

Lemma py_getitem_not_notfound : forall v k, py_getitem v k <> Err NotFoundError.
Proof.
  intros v k. destruct v; simpl; try discriminate.
  destruct (lookup_last k kvs); discriminate.
Qed.

(** C6 (amended): for a response object whose ["data"], if present, is an
    object, [get_organization_id] fails with [NotFoundError] exactly when
    ["data"] or ["organization"] is absent or the organisation is [null] or
    another false JSON value; and when it fails, [fetch_contributions]
    issues no contributions query. *)
Theorem not_found_iff_org_missing :
  (forall kvs,
     (forall dv, lookup_last "data" kvs = Some dv -> exists dk, dv = JObj dk) ->
     (get_organization_id (HttpJson (JObj kvs)) = Err NotFoundError <->
      org_missing kvs)) /\
  (forall resp rs e,
     get_organization_id resp = Err e ->
     fetch_contributions resp rs = ([], Failed e)).
Proof.
  split.
  - intros kvs Hd. unfold org_missing. simpl.
    destruct (lookup_last "data" kvs) as [dv|] eqn:Hl; simpl.
    + destruct (Hd dv eq_refl) as [dk ->]. simpl.
      destruct (lookup_last "organization" dk) as [o|] eqn:Ho; simpl.
      * split.
        -- intros H. right. exists dk. split; [reflexivity|]. right.
           exists o. split; [exact Ho|].
           destruct (truthy o); [|reflexivity].
           exfalso. exact (py_getitem_not_notfound o "id" H).
        -- intros [H|(dk' & H & Hor)]; [discriminate|].
           rewrite ?Hl in H. injection H as H. subst dk'.
           rewrite Ho in Hor.
           destruct Hor as [H'|(o' & H' & Ht)]; [discriminate|].
           injection H' as H'. subst o'. now rewrite Ht.
      * split; [intros _|reflexivity].
        right. exists dk. split; [reflexivity|]. now left.
    + split; [intros _; now left | reflexivity].
  - intros resp rs e H. unfold fetch_contributions. now rewrite H.
Qed.

Lemma not_found_iff_org_missing_witness :
  get_organization_id (HttpJson (JObj [("data", JObj [("organization", JNull)])]))
    = Err NotFoundError /\
  fetch_contributions (HttpJson (JObj [("data", JObj [("organization", JNull)])])) []
    = ([], Failed NotFoundError).
Proof.
  assert (Hnf : get_organization_id
                  (HttpJson (JObj [("data", JObj [("organization", JNull)])]))
                = Err NotFoundError).
  { apply (proj1 not_found_iff_org_missing).
    - simpl. intros dv Hdv. injection Hdv as <-. eexists; reflexivity.
    - right. eexists. split; [reflexivity|]. right. eexists. split; reflexivity. }
  split; [exact Hnf|].
  exact (proj2 not_found_iff_org_missing _ [] _ Hnf).
Defined.

End Resolve.

(** ** The order on [str] *)

Lemma str_compare_refl : forall s, String.compare s s = Eq.
Proof.
  induction s as [|c s IH]; simpl; [reflexivity|].
  unfold Ascii.compare. now rewrite N.compare_refl.
Qed.

Lemma str_compare_trans : forall a b c,
  String.compare a b <> Gt -> String.compare b c <> Gt ->
  String.compare a c <> Gt /\
  (String.compare a b = Lt \/ String.compare b c = Lt -> String.compare a c = Lt).
Proof.
  induction a as [|x a IH]; intros [|y b] [|z c]; simpl;
    try (intuition congruence).
  unfold Ascii.compare.
  destruct (N.compare_spec (N_of_ascii x) (N_of_ascii y)) as [Hxy|Hxy|Hxy];
  destruct (N.compare_spec (N_of_ascii y) (N_of_ascii z)) as [Hyz|Hyz|Hyz];
  destruct (N.compare_spec (N_of_ascii x) (N_of_ascii z)) as [Hxz|Hxz|Hxz];
  try lia; try (intuition congruence).
  intros H1 H2. exact (IH b c H1 H2).
Qed.

Lemma str_ltb_false_iff : forall a b,
  String.ltb a b = false <-> String.compare a b <> Lt.
Proof.
  intros a b. unfold String.ltb.
  destruct (String.compare a b); intuition congruence.
Qed.

Lemma str_leb_iff : forall a b,
  String.leb a b = true <-> String.compare a b <> Gt.
Proof.
  intros a b. unfold String.leb.
  destruct (String.compare a b); intuition congruence.
Qed.

(** ** [sorted(..., reverse=True)] is a stable descending sort *)

Section SortedDescProofs.
Variable A : Type.
Variable key : A -> string.

Lemma desc_iff : forall a b, (desc key) a b <-> String.compare (key b) (key a) <> Gt.
Proof.
  intros a b. unfold desc. rewrite str_ltb_false_iff, String.compare_antisym.
  destruct (String.compare (key b) (key a)); simpl; intuition congruence.
Qed.

Lemma desc_trans : forall a b c, (desc key) a b -> (desc key) b c -> (desc key) a c.
Proof.
  intros a b c. rewrite !desc_iff. intros H1 H2.
  exact (proj1 (str_compare_trans (key c) (key b) (key a) H2 H1)).
Qed.

Lemma insert_desc_perm : forall x l, Permutation (insert_desc key x l) (x :: l).
Proof.
  induction l as [|y l IH]; simpl; [reflexivity|].
  destruct (String.ltb (key y) (key x)); [reflexivity|].
  rewrite IH. apply perm_swap.
Qed.

Lemma sorted_desc_perm_acc : forall l acc,
  Permutation (fold_left (fun acc x => insert_desc key x acc) l acc) (l ++ acc).
Proof.
  induction l as [|x l IH]; intros acc; simpl; [reflexivity|].
  rewrite IH, insert_desc_perm. symmetry. apply Permutation_middle.
Qed.

Lemma sorted_desc_perm : forall l, Permutation (sorted_desc key l) l.
Proof.
  intros l. unfold sorted_desc. rewrite sorted_desc_perm_acc. now rewrite app_nil_r.
Qed.

Lemma insert_desc_sorted : forall x l, Sorted (desc key) l -> Sorted (desc key) (insert_desc key x l).
Proof.
  induction l as [|y l IH]; intros Hs; simpl.
  - repeat constructor.
  - destruct (String.ltb (key y) (key x)) eqn:Hyx.
    + constructor; [assumption|]. constructor. unfold desc.
      apply str_ltb_false_iff. unfold String.ltb in Hyx.
      rewrite String.compare_antisym.
      destruct (String.compare (key y) (key x)); simpl; congruence.
    + inversion Hs as [|? ? Hl Hh]; subst.
      constructor; [now apply IH|].
      destruct l as [|z l]; simpl.
      * constructor. exact Hyx.
      * inversion Hh; subst.
        destruct (String.ltb (key z) (key x)); constructor; assumption.
Qed.

Lemma sorted_desc_sorted_acc : forall l acc,
  Sorted (desc key) acc ->
  Sorted (desc key) (fold_left (fun acc x => insert_desc key x acc) l acc).
Proof.
  induction l as [|x l IH]; intros acc Hs; simpl; [assumption|].
  apply IH, insert_desc_sorted, Hs.
Qed.

Lemma sorted_desc_sorted : forall l, Sorted (desc key) (sorted_desc key l).
Proof. intros l. apply sorted_desc_sorted_acc. constructor. Qed.

Lemma insert_desc_filter : forall d x l,
  Sorted (desc key) l ->
  filter ((key_is key) d) (insert_desc key x l)
  = if (key_is key) d x then (filter ((key_is key) d) l ++ [x])%list else filter ((key_is key) d) l.
Proof.
  intros d x l Hs. apply Sorted_StronglySorted in Hs; [|exact desc_trans].
  induction l as [|y l IH]; simpl.
  - destruct ((key_is key) d x); reflexivity.
  - destruct (String.ltb (key y) (key x)) eqn:Hyx.
    + (* no element of [y :: l] has the key of [x] *)
      assert (Hnone : forall z, In z (y :: l) -> (key_is key) d x = true -> (key_is key) d z = false).
      { intros z Hz Hx. unfold key_is in *. apply String.eqb_eq in Hx.
        apply String.eqb_neq. intros Hzd. subst d.
        unfold String.ltb in Hyx.
        destruct Hz as [<-|Hz].
        - rewrite Hzd, str_compare_refl in Hyx. discriminate.
        - inversion Hs as [|? ? _ Hall]; subst.
          rewrite Forall_forall in Hall. specialize (Hall z Hz).
          unfold desc in Hall. rewrite str_ltb_false_iff in Hall.
          rewrite String.compare_antisym in Hall.
          destruct (str_compare_trans (key z) (key y) (key x)) as [_ Hlt].
          + destruct (String.compare (key z) (key y)); simpl in *; congruence.
          + destruct (String.compare (key y) (key x)); congruence.
          + rewrite Hzd, str_compare_refl in Hlt. discriminate Hlt.
            right. destruct (String.compare (key y) (key x)); congruence. }
      simpl. destruct ((key_is key) d x) eqn:Hx.
      * assert (Hf : filter ((key_is key) d) (y :: l) = []).
        { rewrite (filter_ext_in ((key_is key) d) (fun _ => false)); [apply filter_false|].
          intros z Hz. now apply Hnone. }
        simpl in Hf. rewrite Hf. reflexivity.
      * reflexivity.
    + inversion Hs; subst. simpl. rewrite IH by assumption.
      destruct ((key_is key) d y), ((key_is key) d x); reflexivity.
Qed.

Lemma sorted_desc_filter_acc : forall d l acc,
  Sorted (desc key) acc ->
  filter ((key_is key) d) (fold_left (fun acc x => insert_desc key x acc) l acc)
  = (filter ((key_is key) d) acc ++ filter ((key_is key) d) l)%list.
Proof.
  induction l as [|x l IH]; intros acc Hs; simpl.
  - now rewrite app_nil_r.
  - rewrite IH by (apply insert_desc_sorted, Hs).
    rewrite insert_desc_filter by exact Hs.
    destruct ((key_is key) d x); [now rewrite <- app_assoc | reflexivity].
Qed.

Lemma sorted_desc_stable : forall d l,
  filter ((key_is key) d) (sorted_desc key l) = filter ((key_is key) d) l.
Proof.
  intros d l. unfold sorted_desc. rewrite sorted_desc_filter_acc by constructor.
  reflexivity.
Qed.

End SortedDescProofs.

(** ** Lemmas on [for] loops that may raise *)

Lemma mapM_Forall2 : forall {A B} (f : A -> result B) l l',
  mapM f l = Ok l' -> Forall2 (fun x y => f x = Ok y) l l'.
Proof.
  intros A B f. induction l as [|x l IH]; intros l' H; simpl in H.
  - injection H as <-. constructor.
  - destruct (f x) as [y|e] eqn:Hx; simpl in H; [|discriminate H].
    destruct (mapM f l) as [ys|e] eqn:Hl; simpl in H; [|discriminate H].
    injection H as <-. constructor; [assumption | now apply IH].
Qed.

Lemma Forall2_mapM : forall {A B} (f : A -> result B) l l',
  Forall2 (fun x y => f x = Ok y) l l' -> mapM f l = Ok l'.
Proof.
  intros A B f l l' H. induction H as [|x y l l' Hxy _ IH]; simpl; [reflexivity|].
  rewrite Hxy. simpl. rewrite IH. reflexivity.
Qed.

Lemma mapM_err : forall {A B} (f : A -> result B) l e,
  mapM f l = Err e -> exists x, In x l /\ f x = Err e.
Proof.
  intros A B f. induction l as [|x l IH]; intros e H; simpl in H; [discriminate H|].
  destruct (f x) as [y|e'] eqn:Hx; simpl in H.
  - destruct (mapM f l) as [ys|e'] eqn:Hl; simpl in H; [discriminate H|].
    injection H as <-. destruct (IH e' eq_refl) as (z & Hz & Hfz).
    exists z. split; [now right | assumption].
  - injection H as <-. exists x. split; [now left | assumption].
Qed.

Lemma mapM_some_err : forall {A B} (f : A -> result B) l x e,
  In x l -> f x = Err e -> exists e', mapM f l = Err e'.
Proof.
  intros A B f. induction l as [|y l IH]; intros x e Hin Hx; [destruct Hin|].
  simpl. destruct Hin as [<-|Hin].
  - rewrite Hx. simpl. eexists; reflexivity.
  - destruct (f y); simpl; [|eexists; reflexivity].
    destruct (IH x e Hin Hx) as [e' ->]. simpl. eexists; reflexivity.
Qed.

(** ** Lemmas on [process_contributions] *)

Lemma commit_records_Forall2 : forall agg cs,
  commit_records agg = Ok cs ->
  Forall2 (fun rc r => commit_record (fst rc) (snd rc) = Ok r) (commit_entries agg) cs.
Proof.
  intros agg cs H. unfold commit_records, commit_entries in *.
  destruct (mapM _ (agg_commits agg)) as [rss|e] eqn:Hm; simpl in H; [|discriminate H].
  injection H as <-. apply mapM_Forall2 in Hm.
  induction Hm as [|repo ys repos rss Hy _ IH]; simpl; [constructor|].
  apply Forall2_app; [|exact IH].
  apply mapM_Forall2 in Hy. clear - Hy.
  induction Hy; simpl; constructor; assumption.
Qed.

Lemma normalize_inv : forall agg out,
  normalize agg = Ok out ->
  exists ps iss cs,
    pr_records agg = Ok ps /\ issue_records agg = Ok iss /\
    commit_records agg = Ok cs /\
    enumerate agg = Ok (ps ++ iss ++ cs)%list /\
    out = sorted_desc rec_date (ps ++ iss ++ cs)%list.
Proof.
  intros agg out H. unfold normalize, enumerate in *.
  destruct (pr_records agg) as [ps|e]; simpl in *; [|discriminate H].
  destruct (issue_records agg) as [iss|e]; simpl in *; [|discriminate H].
  destruct (commit_records agg) as [cs|e]; simpl in *; [|discriminate H].
  injection H as <-. exists ps, iss, cs. auto.
Qed.

Lemma Forall2_length_eq : forall {A B} (R : A -> B -> Prop) l l',
  Forall2 R l l' -> List.length l = List.length l'.
Proof. intros A B R l l' H. induction H; simpl; congruence. Qed.

Lemma commit_entries_length : forall agg,
  List.length (commit_entries agg) = commit_occurrences agg.
Proof.
  intros agg. unfold commit_entries, commit_occurrences.
  induction (agg_commits agg) as [|repo repos IH]; simpl; [reflexivity|].
  rewrite length_app, length_map, IH. reflexivity.
Qed.

Lemma Sorted_weaken : forall {A} (R R' : A -> A -> Prop) l,
  (forall a b, R a b -> R' a b) -> Sorted R l -> Sorted R' l.
Proof.
  intros A R R' l HR H. induction H as [|a l Hs IH Hh]; constructor; [exact IH|].
  destruct Hh; constructor. now apply HR.
Qed.

(** ** Claims about [process_contributions] *)

Module Normalize.
Import Samples.

(** C3: a successful [normalize] yields one record per pull request, per
    issue and per commit occurrence. *)
Theorem normalize_length : forall agg out,
  normalize agg = Ok out ->
  List.length out
  = (List.length (agg_prs agg) + List.length (agg_issues agg) + commit_occurrences agg)%nat.
Proof.
  intros agg out H.
  destruct (normalize_inv agg out H) as (ps & iss & cs & Hp & Hi & Hc & _ & ->).
  rewrite (Permutation_length (sorted_desc_perm _ rec_date _)).
  rewrite !length_app.
  apply mapM_Forall2, Forall2_length_eq in Hp.
  apply mapM_Forall2, Forall2_length_eq in Hi.
  apply commit_records_Forall2, Forall2_length_eq in Hc.
  rewrite commit_entries_length in Hc. lia.
Qed.

Lemma normalize_length_witness :
  exists out, normalize sample = Ok out /\ List.length out = 5%nat.
Proof.
  eexists. split; [vm_compute; reflexivity|].
  apply (normalize_length sample). vm_compute. reflexivity.
Defined.

(** C4: the result of [normalize] is a permutation of the enumeration
    before the sort, in descending date order, and for every date the
    records with that date are in the same order as in the enumeration. *)
Theorem normalize_sorted_stable : forall agg out,
  normalize agg = Ok out ->
  exists pre,
    enumerate agg = Ok pre /\
    Permutation out pre /\
    Sorted (fun a b => String.leb (rec_date b) (rec_date a) = true) out /\
    (forall d, filter (fun r => String.eqb (rec_date r) d) out
               = filter (fun r => String.eqb (rec_date r) d) pre).
Proof.
  intros agg out H.
  destruct (normalize_inv agg out H) as (ps & iss & cs & _ & _ & _ & He & ->).
  exists (ps ++ iss ++ cs)%list. split; [exact He|]. split; [apply sorted_desc_perm|].
  split.
  - eapply Sorted_weaken; [|apply sorted_desc_sorted].
    intros a b Hab. apply str_leb_iff. apply (desc_iff _ rec_date). exact Hab.
  - intros d. apply (sorted_desc_stable _ rec_date d).
Qed.

Lemma normalize_sorted_stable_witness :
  exists out, normalize sample = Ok out /\
  exists pre,
    enumerate sample = Ok pre /\
    Permutation out pre /\
    Sorted (fun a b => String.leb (rec_date b) (rec_date a) = true) out /\
    (forall d, filter (fun r => String.eqb (rec_date r) d) out
               = filter (fun r => String.eqb (rec_date r) d) pre).
Proof.
  eexists. split; [vm_compute; reflexivity|].
  apply (normalize_sorted_stable sample). vm_compute. reflexivity.
Defined.

(** C10: among the records of one date, the pull requests come first, then
    the issues, then the commits, each in the order of its source entries. *)
Theorem normalize_kind_order : forall agg out,
  normalize agg = Ok out ->
  exists ps iss cs,
    Forall2 (fun n r => pr_record n = Ok r) (agg_prs agg) ps /\
    Forall2 (fun n r => issue_record n = Ok r) (agg_issues agg) iss /\
    Forall2 (fun rc r => commit_record (fst rc) (snd rc) = Ok r) (commit_entries agg) cs /\
    Forall (fun r => rec_type r = PullRequestT) ps /\
    Forall (fun r => rec_type r = IssueT) iss /\
    Forall (fun r => rec_type r = CommitT) cs /\
    (forall d, filter (fun r => String.eqb (rec_date r) d) out
               = (filter (fun r => String.eqb (rec_date r) d) ps
                  ++ filter (fun r => String.eqb (rec_date r) d) iss
                  ++ filter (fun r => String.eqb (rec_date r) d) cs)%list).
Proof.
  intros agg out H.
  destruct (normalize_inv agg out H) as (ps & iss & cs & Hp & Hi & Hc & _ & ->).
  apply mapM_Forall2 in Hp. apply mapM_Forall2 in Hi.
  apply commit_records_Forall2 in Hc.
  exists ps, iss, cs. repeat split; try assumption.
  - clear - Hp. induction Hp as [|n r ns rs Hr _ IH]; constructor; [|exact IH].
    unfold pr_record in Hr. destruct (to_day _); simpl in Hr; [|discriminate Hr].
    injection Hr as <-. reflexivity.
  - clear - Hi. induction Hi as [|n r ns rs Hr _ IH]; constructor; [|exact IH].
    unfold issue_record in Hr. destruct (to_day _); simpl in Hr; [|discriminate Hr].
    injection Hr as <-. reflexivity.
  - clear - Hc. induction Hc as [|n r ns rs Hr _ IH]; constructor; [|exact IH].
    unfold commit_record in Hr. destruct (to_day _); simpl in Hr; [|discriminate Hr].
    injection Hr as <-. reflexivity.
  - intros d. rewrite (sorted_desc_stable _ rec_date d). unfold key_is.
    rewrite !filter_app. reflexivity.
Qed.

Lemma normalize_kind_order_witness :
  exists out, normalize sample = Ok out /\
  exists ps iss cs,
    Forall2 (fun n r => pr_record n = Ok r) (agg_prs sample) ps /\
    Forall2 (fun n r => issue_record n = Ok r) (agg_issues sample) iss /\
    Forall2 (fun rc r => commit_record (fst rc) (snd rc) = Ok r) (commit_entries sample) cs /\
    Forall (fun r => rec_type r = PullRequestT) ps /\
    Forall (fun r => rec_type r = IssueT) iss /\
    Forall (fun r => rec_type r = CommitT) cs /\
    (forall d, filter (fun r => String.eqb (rec_date r) d) out
               = (filter (fun r => String.eqb (rec_date r) d) ps
                  ++ filter (fun r => String.eqb (rec_date r) d) iss
                  ++ filter (fun r => String.eqb (rec_date r) d) cs)%list).
Proof.
  eexists. split; [vm_compute; reflexivity|].
  apply (normalize_kind_order sample). vm_compute. reflexivity.
Defined.

End Normalize.

(** ** [strptime] on timestamps of the shape [YYYY-MM-DDTHH:MM:SSZ] *)

Lemma nat_of_digit_char : forall a, (a < 10)%nat -> nat_of_ascii (digit_char a) = (48 + a)%nat.
Proof. intros a Ha. unfold digit_char. apply nat_ascii_embedding. lia. Qed.

Lemma digit_val_char : forall a, (a < 10)%nat -> digit_val (digit_char a) = a.
Proof. intros a Ha. unfold digit_val. rewrite nat_of_digit_char by exact Ha. lia. Qed.

Lemma digit_of_is_digit : forall c,
  is_digit c = true -> exists a, (a < 10)%nat /\ c = digit_char a.
Proof.
  intros c H. unfold is_digit in H. apply andb_true_iff in H as [H1 H2].
  apply Nat.leb_le in H1. apply Nat.leb_le in H2.
  exists (nat_of_ascii c - 48)%nat. split; [lia|].
  unfold digit_char. rewrite <- (ascii_nat_embedding c) at 1. f_equal. lia.
Qed.

Lemma lower_digit_char : forall a, (a < 10)%nat -> lower (digit_char a) = digit_char a.
Proof.
  intros a Ha. unfold lower. rewrite nat_of_digit_char by exact Ha.
  destruct (Nat.leb_spec 65 (48 + a)); [lia|reflexivity].
Qed.

Lemma p_bind_alt : forall {A B} (p q : parser A) (f : A -> parser B) s,
  p_bind (p_alt p q) f s = (p_bind p f s ++ p_bind q f s)%list.
Proof. intros. unfold p_bind, p_alt. apply flat_map_app. Qed.

Lemma p_bind_assoc : forall {A B C} (p : parser A) (g : A -> parser B)
  (f : B -> parser C) s,
  p_bind (p_bind p g) f s = p_bind p (fun a => p_bind (g a) f) s.
Proof.
  intros. unfold p_bind. induction (p s) as [|[a rest] l IH]; simpl; [reflexivity|].
  rewrite flat_map_app, IH. reflexivity.
Qed.

Lemma p_bind_ret : forall {A B} (a : A) (f : A -> parser B) s,
  p_bind (p_ret a) f s = f a s.
Proof. intros. unfold p_bind, p_ret. simpl. apply app_nil_r. Qed.

Lemma p_bind_digit : forall {B} lo hi a s (f : nat -> parser B),
  (a < 10)%nat ->
  p_bind (p_digit_in lo hi) f (digit_char a :: s)
  = if ((lo <=? a) && (a <=? hi))%nat then f a s else [].
Proof.
  intros B lo hi a s f Ha. pose proof (nat_of_digit_char a Ha) as Hn.
  revert Hn. generalize (digit_char a) as c. intros c Hn.
  unfold p_bind, p_digit_in, p_char, digit_val. cbn beta iota zeta.
  rewrite Hn. replace (48 + a - 48)%nat with a by lia.
  destruct (Nat.leb_spec (48 + lo) (48 + a)), (Nat.leb_spec lo a);
  destruct (Nat.leb_spec (48 + a) (48 + hi)), (Nat.leb_spec a hi);
  try lia; cbn; try reflexivity. apply app_nil_r.
Qed.

Lemma p_bind_lit_digit : forall {B} c a s (f : nat -> parser B),
  (a < 10)%nat -> is_digit (lower c) = false ->
  p_bind (p_lit c) f (digit_char a :: s) = [].
Proof.
  intros B c a s f Ha Hc. pose proof (nat_of_digit_char a Ha) as Hn.
  pose proof (lower_digit_char a Ha) as Hl.
  revert Hn Hl. generalize (digit_char a) as d. intros d Hn Hl.
  unfold p_bind, p_lit, p_char. cbn beta iota zeta. rewrite Hl.
  destruct (Ascii.eqb_spec (lower c) d) as [E|E]; [|reflexivity].
  exfalso. rewrite E in Hc. unfold is_digit in Hc. rewrite Hn in Hc.
  destruct (Nat.leb_spec 48 (48 + a)), (Nat.leb_spec (48 + a) 57); cbn in Hc;
    try discriminate; lia.
Qed.

Lemma p_then_same : forall {A} c (k : parser A) s, p_then c k (c :: s) = k s.
Proof.
  intros. unfold p_then, p_bind, p_lit, p_char. cbn beta iota zeta.
  rewrite Ascii.eqb_refl. cbn. apply app_nil_r.
Qed.

Lemma p_then_digit : forall {A} c (k : parser A) a s,
  (a < 10)%nat -> is_digit (lower c) = false -> p_then c k (digit_char a :: s) = [].
Proof. intros. unfold p_then. now apply p_bind_lit_digit. Qed.

Lemma p_bind_any_digit : forall {B} a s (f : nat -> parser B),
  (a < 10)%nat -> p_bind p_digit f (digit_char a :: s) = f a s.
Proof.
  intros. unfold p_digit. rewrite p_bind_digit by assumption.
  destruct (Nat.leb_spec 0 a), (Nat.leb_spec a 9); try lia. reflexivity.
Qed.

Ltac parse_steps :=
  repeat (progress (rewrite ?p_bind_alt, ?p_bind_assoc, ?p_bind_ret;
                    rewrite ?p_bind_any_digit by assumption;
                    rewrite ?p_bind_digit by assumption;
                    rewrite ?p_bind_lit_digit by (assumption || reflexivity);
                    cbv beta)).

Ltac enum_digit a :=
  let H := fresh in
  assert (H : (a = 0 \/ a = 1 \/ a = 2 \/ a = 3 \/ a = 4 \/ a = 5 \/ a = 6
               \/ a = 7 \/ a = 8 \/ a = 9)%nat) by lia;
  destruct H as [H|[H|[H|[H|[H|[H|[H|[H|[H|H]]]]]]]]]; subst a.

Ltac two_digit_field Hf a b :=
  parse_steps; rewrite ?Hf by assumption;
  enum_digit a; enum_digit b; cbn; rewrite ?app_nil_r; reflexivity.

Section Fields.
Context {B : Type} (f : nat -> parser B).
Hypothesis Hf : forall v c s', (c < 10)%nat -> f v (digit_char c :: s') = [].

Lemma re_Y_digits : forall a b c d s,
  (a < 10)%nat -> (b < 10)%nat -> (c < 10)%nat -> (d < 10)%nat ->
  p_bind re_Y f (digit_char a :: digit_char b :: digit_char c :: digit_char d :: s)
  = f (10 * (10 * (10 * a + b) + c) + d)%nat s.
Proof. intros. unfold re_Y, p_two. parse_steps. reflexivity. Qed.

Lemma re_m_digits : forall a b s, (a < 10)%nat -> (b < 10)%nat ->
  p_bind re_m f (digit_char a :: digit_char b :: s)
  = if ((1 <=? 10 * a + b) && (10 * a + b <=? 12))%nat then f (10 * a + b)%nat s else [].
Proof. intros a b s Ha Hb. unfold re_m, p_two. two_digit_field Hf a b. Qed.

Lemma re_d_digits : forall a b s, (a < 10)%nat -> (b < 10)%nat ->
  p_bind re_d f (digit_char a :: digit_char b :: s)
  = if ((1 <=? 10 * a + b) && (10 * a + b <=? 31))%nat then f (10 * a + b)%nat s else [].
Proof. intros a b s Ha Hb. unfold re_d, p_two. two_digit_field Hf a b. Qed.

Lemma re_H_digits : forall a b s, (a < 10)%nat -> (b < 10)%nat ->
  p_bind re_H f (digit_char a :: digit_char b :: s)
  = if (10 * a + b <=? 23)%nat then f (10 * a + b)%nat s else [].
Proof. intros a b s Ha Hb. unfold re_H, p_two. two_digit_field Hf a b. Qed.

Lemma re_M_digits : forall a b s, (a < 10)%nat -> (b < 10)%nat ->
  p_bind re_M f (digit_char a :: digit_char b :: s)
  = if (10 * a + b <=? 59)%nat then f (10 * a + b)%nat s else [].
Proof. intros a b s Ha Hb. unfold re_M, p_two. two_digit_field Hf a b. Qed.

Lemma re_S_digits : forall a b s, (a < 10)%nat -> (b < 10)%nat ->
  p_bind re_S f (digit_char a :: digit_char b :: s)
  = if (10 * a + b <=? 61)%nat then f (10 * a + b)%nat s else [].
Proof. intros a b s Ha Hb. unfold re_S, p_two. two_digit_field Hf a b. Qed.

End Fields.

Lemma pad2_digits : forall a b, (a < 10)%nat -> (b < 10)%nat ->
  pad2 (10 * a + b) = String (digit_char a) (String (digit_char b) EmptyString).
Proof.
  intros a b Ha Hb. unfold pad2.
  replace ((10 * a + b) / 10)%nat with a by (apply Nat.div_unique with b; lia).
  replace ((10 * a + b) mod 10)%nat with b by (apply Nat.mod_unique with a; lia).
  reflexivity.
Qed.

Lemma pad4_digits : forall a b c d,
  (a < 10)%nat -> (b < 10)%nat -> (c < 10)%nat -> (d < 10)%nat ->
  pad4 (10 * (10 * (10 * a + b) + c) + d)
  = String (digit_char a) (String (digit_char b)
      (String (digit_char c) (String (digit_char d) EmptyString))).
Proof.
  intros a b c d Ha Hb Hc Hd. unfold pad4.
  set (n := (10 * (10 * (10 * a + b) + c) + d)%nat).
  replace (n / 1000)%nat with a by (apply Nat.div_unique with (100 * b + 10 * c + d)%nat; lia).
  replace (n / 100)%nat with (10 * a + b)%nat by (apply Nat.div_unique with (10 * c + d)%nat; lia).
  replace (n / 10)%nat with (10 * (10 * a + b) + c)%nat by (apply Nat.div_unique with d; lia).
  replace ((10 * a + b) mod 10)%nat with b by (apply Nat.mod_unique with a; lia).
  replace ((10 * (10 * a + b) + c) mod 10)%nat with c
    by (apply Nat.mod_unique with (10 * a + b)%nat; lia).
  replace (n mod 10)%nat with d by (apply Nat.mod_unique with (10 * (10 * a + b) + c)%nat; lia).
  reflexivity.
Qed.

Lemma days_in_month_le : forall y m, (days_in_month y m <= 31)%nat.
Proof.
  intros y m. unfold days_in_month.
  destruct m as [|[|[|[|[|[|[|[|[|[|[|[|m]]]]]]]]]]]]; try lia.
  destruct (is_leap y); lia.
Qed.

Lemma to_day_err : forall s e, to_day s = Err e -> e = ParseError.
Proof.
  intros s e H. unfold to_day, strptime in H.
  destruct (re_timestamp (list_ascii_of_string s)) as [|[f [|c r]] l];
    cbn in H; try (injection H; auto; fail).
  destruct (datetime_ok f); cbn in H; [discriminate H|]. injection H; auto.
Qed.

Ltac bool_facts :=
  repeat match goal with
  | H : (_ && _) = true |- _ => apply andb_prop in H; destruct H
  | H : (_ && _) = false |- _ => apply andb_false_iff in H; destruct H
  | H : (_ <=? _)%nat = true |- _ => apply Nat.leb_le in H
  | H : (_ <=? _)%nat = false |- _ => apply Nat.leb_gt in H
  end.

Lemma to_day_shape : forall s, exact_shape s = true ->
  to_day s = if datetime_ok (shape_fields s) then Ok (substring 0 10 s)
             else Err ParseError.
Proof.
  intros s H.
  do 20 (destruct s as [|?c s]; [discriminate H|]). destruct s; [|discriminate H].
  cbn [exact_shape list_ascii_of_string forallb] in H.
  repeat match goal with
  | H : (_ && _) = true |- _ => apply andb_prop in H; destruct H
  | H : Ascii.eqb _ _ = true |- _ => apply Ascii.eqb_eq in H; subst
  | H : is_digit ?c = true |- _ =>
      apply digit_of_is_digit in H; destruct H as [? [? ->]]
  end.
  unfold to_day, strptime, re_timestamp. cbn [list_ascii_of_string shape_fields].
  rewrite ?digit_val_char by assumption.
  repeat (progress (
    rewrite ?p_then_same;
    rewrite ?re_Y_digits, ?re_m_digits, ?re_d_digits, ?re_H_digits,
            ?re_M_digits, ?re_S_digits
      by first [assumption
               | intros; cbv beta; apply p_then_digit; [assumption|reflexivity]];
    cbv beta)).
  unfold p_ret.
  repeat match goal with
  | |- context [if ?c then _ else _] =>
      lazymatch c with datetime_ok _ => fail | _ => destruct c eqn:? end
  end; cbn [bind];
  destruct (datetime_ok _) eqn:Hdt; cbn [bind]; try reflexivity;
  try (exfalso; unfold datetime_ok in Hdt;
       cbn [f_year f_month f_day f_hour f_minute f_second] in Hdt; bool_facts;
       match goal with
       | H : (_ <= days_in_month ?y ?m)%nat |- _ => pose proof (days_in_month_le y m)
       end; lia).
  unfold strftime_date. cbn [f_year f_month f_day].
  rewrite pad4_digits, !pad2_digits by assumption. reflexivity.
Qed.

Lemma pr_record_err : forall p e, pr_record p = Err e <-> to_day (pr_createdAt p) = Err e.
Proof.
  intros p e. unfold pr_record. destruct (to_day (pr_createdAt p)); cbn; split; congruence.
Qed.

Lemma issue_record_err : forall i e, issue_record i = Err e <-> to_day (is_createdAt i) = Err e.
Proof.
  intros i e. unfold issue_record. destruct (to_day (is_createdAt i)); cbn; split; congruence.
Qed.

Lemma commit_record_err : forall r c e,
  commit_record r c = Err e <-> to_day (cm_occurredAt c) = Err e.
Proof.
  intros r c e. unfold commit_record. destruct (to_day (cm_occurredAt c)); cbn; split; congruence.
Qed.

Lemma commit_records_err : forall agg e, commit_records agg = Err e ->
  exists rc, In rc (commit_entries agg) /\ commit_record (fst rc) (snd rc) = Err e.
Proof.
  intros agg e H. unfold commit_records in H.
  destruct (mapM _ (agg_commits agg)) as [rss|e'] eqn:Hm; cbn in H; [discriminate H|].
  injection H as <-. apply mapM_err in Hm as (repo & Hrepo & Hinner).
  apply mapM_err in Hinner as (c & Hc & Hrc).
  exists (repo, c). split; [|exact Hrc].
  unfold commit_entries. apply in_flat_map. exists repo. split; [exact Hrepo|].
  apply in_map. exact Hc.
Qed.

Lemma commit_entry_err : forall agg rc e, In rc (commit_entries agg) ->
  commit_record (fst rc) (snd rc) = Err e -> exists e', commit_records agg = Err e'.
Proof.
  intros agg [repo c] e Hin Hrc. unfold commit_entries in Hin.
  apply in_flat_map in Hin as (repo' & Hrepo & Hin). apply in_map_iff in Hin as (c' & Heq & Hc).
  injection Heq as <- <-.
  destruct (mapM_some_err _ _ _ _ Hc Hrc) as [e1 He1].
  destruct (mapM_some_err (fun r => mapM (commit_record r) (repo_nodes r)) _ _ _ Hrepo He1)
    as [e2 He2].
  exists e2. unfold commit_records. rewrite He2. reflexivity.
Qed.

Lemma normalize_err_timestamp : forall agg e, normalize agg = Err e ->
  exists ts, In ts (timestamps agg) /\ to_day ts = Err e.
Proof.
  intros agg e H. unfold normalize, enumerate, timestamps in *.
  destruct (pr_records agg) as [ps|e1] eqn:Hp; cbn in H.
  - destruct (issue_records agg) as [iss|e2] eqn:Hi; cbn in H.
    + destruct (commit_records agg) as [cs|e3] eqn:Hc; cbn in H; [discriminate H|].
      injection H as <-. apply commit_records_err in Hc as (rc & Hrc & Herr).
      exists (cm_occurredAt (snd rc)). split.
      * apply in_or_app. right. apply in_or_app. right.
        apply (in_map (fun rc => cm_occurredAt (snd rc))). exact Hrc.
      * apply commit_record_err in Herr. exact Herr.
    + injection H as <-. apply mapM_err in Hi as (i & Hin & Herr).
      exists (is_createdAt i). split.
      * apply in_or_app. right. apply in_or_app. left. apply in_map. exact Hin.
      * apply issue_record_err. exact Herr.
  - injection H as <-. apply mapM_err in Hp as (p & Hin & Herr).
    exists (pr_createdAt p). split.
    + apply in_or_app. left. apply in_map. exact Hin.
    + apply pr_record_err. exact Herr.
Qed.

Lemma timestamp_err_normalize : forall agg ts e, In ts (timestamps agg) ->
  to_day ts = Err e -> exists e', normalize agg = Err e'.
Proof.
  intros agg ts e Hin Hts. unfold normalize, enumerate.
  destruct (pr_records agg) as [ps|e1] eqn:Hp; cbn; [|eexists; reflexivity].
  destruct (issue_records agg) as [iss|e2] eqn:Hi; cbn; [|eexists; reflexivity].
  destruct (commit_records agg) as [cs|e3] eqn:Hc; cbn; [|eexists; reflexivity].
  exfalso. unfold timestamps in Hin.
  apply in_app_or in Hin as [Hin|Hin]; [|apply in_app_or in Hin as [Hin|Hin]];
    apply in_map_iff in Hin as (x & <- & Hx).
  - apply pr_record_err in Hts. destruct (mapM_some_err _ _ _ _ Hx Hts) as [e' He'].
    unfold pr_records in Hp. congruence.
  - apply issue_record_err in Hts. destruct (mapM_some_err _ _ _ _ Hx Hts) as [e' He'].
    unfold issue_records in Hi. congruence.
  - apply (commit_record_err (fst x)) in Hts.
    destruct (commit_entry_err _ _ _ Hx Hts) as [e' He']. congruence.
Qed.

Module Dates.
Import Samples.

(** Counterexample to C8: ["2024-13-01T00:00:00Z"] matches the shape
    [YYYY-MM-DDTHH:MM:SSZ] character for character, yet [normalize] fails
    with [ParseError] on it; and ["2024-1-5t1:2:3z"] does not match the
    shape, yet [strptime] accepts it (one-digit fields, [re.IGNORECASE]). *)
Lemma shape_not_the_criterion :
  exact_shape "2024-13-01T00:00:00Z" = true /\ normalize month13 = Err ParseError /\
  exact_shape "2024-1-5t1:2:3z" = false /\ to_day "2024-1-5t1:2:3z" = Ok "2024-01-05".
Proof. vm_compute. repeat split. Qed.

(** C8 (amended): [normalize] fails only with [ParseError], and it fails
    exactly when some entry's timestamp (pull requests, issues, commit
    occurrences) is rejected by [strptime]. A timestamp of the exact shape
    [YYYY-MM-DDTHH:MM:SSZ] is accepted exactly when it names a valid
    date-time (year at least 1, month 1 to 12, a day that exists in its month, hour at most
    23, minute and second at most 59); when its year is at least 1000, its
    day is then its first ten characters [YYYY-MM-DD] (for a year below
    1000 the padding of the year depends on the Python version). *)
Theorem parse_error_iff_bad_timestamp :
  (forall agg e, normalize agg = Err e -> e = ParseError) /\
  (forall agg, (exists e, normalize agg = Err e) <->
               exists ts, In ts (timestamps agg) /\ to_day ts = Err ParseError) /\
  (forall s, exact_shape s = true ->
     ((exists d, to_day s = Ok d) <-> datetime_ok (shape_fields s) = true) /\
     (datetime_ok (shape_fields s) = true -> (1000 <= f_year (shape_fields s))%nat ->
      to_day s = Ok (substring 0 10 s))).
Proof.
  split; [|split].
  - intros agg e H. apply normalize_err_timestamp in H as (ts & _ & Hts).
    exact (to_day_err _ _ Hts).
  - intros agg. split.
    + intros [e H]. pose proof H as H'. apply normalize_err_timestamp in H as (ts & Hin & Hts).
      pose proof (to_day_err _ _ Hts) as ->. exists ts. split; assumption.
    + intros (ts & Hin & Hts). exact (timestamp_err_normalize _ _ _ Hin Hts).
  - intros s Hs. rewrite (to_day_shape s Hs).
    destruct (datetime_ok (shape_fields s)); split.
    + split; [reflexivity|]. intros _. eexists. reflexivity.
    + intros _ _. reflexivity.
    + split; [intros [d Hd]; discriminate Hd|discriminate].
    + discriminate.
Qed.

End Dates.


(** ** [process_contributions] leaves its input alone *)
Module Purity.
Import PyHeap.

Lemma find_key_in : forall k kvs x, find_key k kvs = Some x -> In (k, x) kvs.
Proof.
  intros k kvs x. induction kvs as [|[k' v] rest IH]; cbn; [discriminate|].
  destruct (String.eqb_spec k k') as [->|_]; [intros [= ->]; left; reflexivity|].
  intros H. right. exact (IH H).
Qed.

Lemma bind_congr : forall {A B} (m1 m2 : result A) (k1 k2 : A -> result B),
  m1 = m2 -> (forall a, m2 = Ok a -> k1 a = k2 a) -> bind m1 k1 = bind m2 k2.
Proof. intros A B m1 m2 k1 k2 -> Hk. destruct m2 as [a|e]; cbn; [apply Hk|]; reflexivity. Qed.

Lemma set_nth_app : forall {A} (l1 l2 : list A) x y,
  set_nth (List.length l1) y (l1 ++ x :: l2)%list = (l1 ++ y :: l2)%list.
Proof. intros A l1. induction l1 as [|a l1 IH]; intros; cbn; [reflexivity|]. rewrite IH. reflexivity. Qed.

Lemma add_record_emits : forall H F R, (forall fs, F (st H fs) = R) ->
  emits H (add_record (List.length H) F) (f <- R;; Ok [f]).
Proof.
  intros H F R HF fs. unfold add_record, mbind, read, alloc, list_append. rewrite HF.
  destruct R as [f|e]; cbn [bind]; [|exists fs; reflexivity].
  unfold st. rewrite <- app_assoc. rewrite nth_error_app2 by lia. rewrite Nat.sub_diag.
  cbn [nth_error app]. rewrite set_nth_app.
  rewrite (length_app fs [f]), seq_app, !map_app. cbn [List.length seq map].
  rewrite length_app. cbn [List.length]. rewrite length_map.
  replace (S (List.length H) + List.length fs)%nat with (List.length H + S (List.length fs))%nat by lia.
  reflexivity.
Qed.


Lemma bind_ok_inv : forall {A B} (m : result A) (k : A -> result B) b,
  bind m k = Ok b -> exists a, m = Ok a /\ k a = Ok b.
Proof. intros A B [a|e] k b H; cbn in H; [exists a; split; [reflexivity|exact H]|discriminate H]. Qed.

Lemma emits_eq : forall H body o1 o2, emits H body o1 -> o1 = o2 -> emits H body o2.
Proof. intros H body o1 o2 E <-. exact E. Qed.

Lemma for_each_emits : forall H {A} (xs : list A) body outs,
  (forall x, In x xs -> emits H (body x) (outs x)) ->
  emits H (for_each xs body) (rs <- mapM outs xs;; Ok (List.concat rs)).
Proof.
  intros H A xs body outs. induction xs as [|x xs IH]; intros Hb fs.
  - cbn. rewrite app_nil_r. reflexivity.
  - cbn [for_each mapM]. unfold mbind at 1. cbv beta.
    pose proof (Hb x (or_introl eq_refl) fs) as Hx.
    pose proof (fun fs' => IH (fun y Hy => Hb y (or_intror Hy)) fs') as Hr.
    destruct (outs x) as [g|e]; cbn [bind].
    + rewrite Hx. specialize (Hr (fs ++ g)%list).
      destruct (mapM outs xs) as [gs|e'] eqn:Hm; cbn [bind List.concat] in *.
      * rewrite Hr, app_assoc. reflexivity.
      * destruct Hr as [fs' Hr]. exists fs'. unfold mbind. rewrite Hx. exact Hr.
    + destruct Hx as [fs' Hx]. exists fs'. unfold mbind. rewrite Hx. reflexivity.
Qed.

Lemma mapM_singleton : forall {A B} (G : A -> result B) xs,
  (rs <- mapM (fun x => f <- G x;; Ok [f]) xs;; Ok (List.concat rs)) = mapM G xs.
Proof.
  intros A B G xs. induction xs as [|x xs IH]; [reflexivity|].
  cbn [mapM]. destruct (G x) as [y|e]; cbn [bind]; [|reflexivity].
  rewrite <- IH. destruct (mapM (fun x0 => f <- G x0;; Ok [f]) xs); reflexivity.
Qed.

Lemma read_emits : forall H {A} (F : heap -> result A) R k o,
  (forall fs, F (st H fs) = R) -> (forall a, R = Ok a -> emits H (k a) (o a)) ->
  emits H (a <-- read F;;; k a) (a <- R;; o a).
Proof.
  intros H A F R k o HF Hk fs. unfold mbind, read. rewrite HF.
  destruct R as [a|e]; cbn [bind].
  - exact (Hk a eq_refl fs).
  - exists fs. reflexivity.
Qed.

Lemma seq_emits : forall H m1 m2 o1 o2, emits H m1 o1 -> emits H m2 o2 ->
  emits H (_ <-- m1;;; m2) (a <- o1;; b <- o2;; Ok (a ++ b)%list).
Proof.
  intros H m1 m2 o1 o2 E1 E2 fs. specialize (E1 fs). unfold mbind.
  destruct o1 as [a|e]; cbn [bind].
  - rewrite E1. specialize (E2 (fs ++ a)%list).
    destruct o2 as [b|e]; cbn [bind].
    + rewrite E2, app_assoc. reflexivity.
    + exact E2.
  - destruct E1 as [fs' E1]. exists fs'. rewrite E1. reflexivity.
Qed.

Lemma insert_desc_map : forall {A B} (f : A -> B) (k : B -> string) x l,
  insert_desc k (f x) (map f l) = map f (insert_desc (fun y => k (f y)) x l).
Proof.
  intros A B f k x l. induction l as [|y l IH]; cbn; [reflexivity|].
  destruct (String.ltb (k (f y)) (k (f x))); cbn; [reflexivity|]. rewrite IH. reflexivity.
Qed.

Lemma sorted_desc_map : forall {A B} (f : A -> B) (k : B -> string) l,
  sorted_desc k (map f l) = map f (sorted_desc (fun y => k (f y)) l).
Proof.
  intros A B f k l. unfold sorted_desc. change (@nil B) with (map f (@nil A)).
  generalize (@nil A) as acc. induction l as [|x l IH]; intros acc; cbn; [reflexivity|].
  rewrite insert_desc_map. apply IH.
Qed.

Lemma map_fst_combine : forall {A B} (l1 : list A) (l2 : list B),
  List.length l1 = List.length l2 -> map fst (combine l1 l2) = l1.
Proof.
  intros A B l1. induction l1 as [|x l1 IH]; intros [|y l2] E; cbn in *; try discriminate;
    [reflexivity|]. rewrite IH by lia. reflexivity.
Qed.

Lemma map_snd_combine : forall {A B} (l1 : list A) (l2 : list B),
  List.length l1 = List.length l2 -> map snd (combine l1 l2) = l2.
Proof.
  intros A B l1. induction l1 as [|x l1 IH]; intros [|y l2] E; cbn in *; try discriminate;
    [reflexivity|]. rewrite IH by lia. reflexivity.
Qed.

Lemma in_combine_seq : forall {B} (gs : list B) s p,
  In p (combine (seq s (List.length gs)) gs) ->
  exists k, fst p = (s + k)%nat /\ nth_error gs k = Some (snd p).
Proof.
  intros B gs. induction gs as [|g gs IH]; intros s p Hin; cbn in Hin; [destruct Hin|].
  destruct Hin as [<-|Hin].
  - exists 0%nat. cbn. split; [lia|reflexivity].
  - destruct (IH (S s) p Hin) as (k & E1 & E2). exists (S k). cbn. split; [lia|exact E2].
Qed.

Lemma st_lookup : forall H gs k g, nth_error gs k = Some g ->
  nth_error (st H gs) (S (List.length H) + k) = Some (ODict g).
Proof.
  intros H gs k g E. unfold st. rewrite nth_error_app2 by lia.
  replace (S (List.length H) + k - List.length H)%nat with (S k) by lia.
  cbn. rewrite nth_error_map, E. reflexivity.
Qed.

Lemma date_keys : forall hh (ps : list (nat * list (string * val))),
  (forall p, In p ps -> nth_error hh (fst p) = Some (ODict (snd p)) /\ has_date (snd p)) ->
  mapM (date_key hh) (map (fun p => VRef (fst p)) ps)
  = Ok (map (fun p => (field_date (snd p), VRef (fst p))) ps).
Proof.
  intros hh ps. induction ps as [|p ps IH]; intros Hp; [reflexivity|].
  cbn [map mapM]. destruct (Hp p (or_introl eq_refl)) as [E [s Hs]].
  unfold date_key at 1, getitem. rewrite E, Hs. cbn [bind].
  rewrite IH by (intros q Hq; exact (Hp q (or_intror Hq))). cbn [bind].
  unfold field_date. rewrite Hs. reflexivity.
Qed.

Lemma record_views : forall hh (ps : list (nat * list (string * val))),
  (forall p, In p ps -> nth_error hh (fst p) = Some (ODict (snd p))) ->
  mapM (record_view hh) (map (fun p => VRef (fst p)) ps) = Ok (map snd ps).
Proof.
  intros hh ps. induction ps as [|p ps IH]; intros Hp; [reflexivity|].
  cbn [map mapM]. unfold record_view at 1. rewrite (Hp p (or_introl eq_refl)). cbn [bind].
  rewrite IH by (intros q Hq; exact (Hp q (or_intror Hq))). reflexivity.
Qed.

(** The sort of lines 189: a new list, the records in [sorted_desc] order. *)
Lemma sorted_phase : forall H gs, Forall has_date gs ->
  exists v ext, sorted_by_date (List.length H) (st H gs) = (Ok v, (st H gs ++ ext)%list) /\
                seq_view (st H gs ++ ext)%list v = Ok (sorted_desc field_date gs).
Proof.
  intros H gs Hd.
  set (zs := combine (seq (S (List.length H)) (List.length gs)) gs).
  assert (Hlen : List.length (seq (S (List.length H)) (List.length gs)) = List.length gs)
    by apply length_seq.
  assert (Hz : forall p, In p zs -> nth_error (st H gs) (fst p) = Some (ODict (snd p))).
  { intros p Hp. destruct (in_combine_seq gs _ p Hp) as (k & E1 & E2).
    rewrite E1. apply st_lookup. exact E2. }
  assert (Hiter : py_iter (st H gs) (VRef (List.length H))
                  = Ok (map (fun p => VRef (fst p)) zs)).
  { unfold py_iter, st. rewrite nth_error_app2 by lia. rewrite Nat.sub_diag. cbn.
    rewrite <- (map_map fst VRef). unfold zs. rewrite map_fst_combine by exact Hlen.
    reflexivity. }
  assert (Hkeys : mapM (date_key (st H gs)) (map (fun p => VRef (fst p)) zs)
                  = Ok (map (fun p => (field_date (snd p), VRef (fst p))) zs)).
  { apply date_keys. intros p Hp. split; [exact (Hz p Hp)|].
    rewrite Forall_forall in Hd. apply Hd.
    destruct (in_combine_seq gs _ p Hp) as (k & _ & E2). eapply nth_error_In. exact E2. }
  set (sorted := sorted_desc (fun p => field_date (snd p)) zs).
  exists (VRef (List.length (st H gs))), [OList (map (fun p => VRef (fst p)) sorted)].
  unfold sorted_by_date, mbind, read, alloc, mret. rewrite Hiter, Hkeys.
  rewrite (sorted_desc_map (fun p => (field_date (snd p), VRef (fst p))) fst).
  rewrite map_map. cbn [snd fst]. fold sorted. split; [reflexivity|].
  unfold seq_view. rewrite nth_error_app2 by lia. rewrite Nat.sub_diag. cbn [nth_error].
  rewrite record_views.
  - unfold sorted. rewrite <- (sorted_desc_map snd field_date). unfold zs.
    rewrite map_snd_combine by exact Hlen. reflexivity.
  - intros p Hp. rewrite nth_error_app1.
    + apply Hz. eapply Permutation_in; [apply sorted_desc_perm|exact Hp].
    + apply nth_error_Some. rewrite (Hz p); [discriminate|].
      eapply Permutation_in; [apply sorted_desc_perm|exact Hp].
Qed.


Lemma py_day_str : forall v w, py_day v = Ok w -> exists s, w = VStr s.
Proof.
  intros [| | | s |] w; cbn; try discriminate.
  destruct (to_day s); cbn; [|discriminate]. intros [= <-]. eexists; reflexivity.
Qed.

Ltac fields_date H :=
  repeat (apply bind_ok_inv in H as (? & ? & H)); injection H as <-;
  match goal with E : py_day _ = Ok ?w |- _ =>
    let s := fresh "s" in destruct (py_day_str _ _ E) as [s ->]; exists s; reflexivity end.

Lemma pr_fields_date : forall h pr g, pr_fields h pr = Ok g -> has_date g.
Proof. intros h pr g H. unfold pr_fields in H. fields_date H. Qed.

Lemma issue_fields_date : forall h i g, issue_fields h i = Ok g -> has_date g.
Proof. intros h i g H. unfold issue_fields in H. fields_date H. Qed.

Lemma commit_fields_date : forall h r c g, commit_fields h r c = Ok g -> has_date g.
Proof. intros h r c g H. unfold commit_fields in H. fields_date H. Qed.

Lemma mapM_Forall : forall {A B} (f : A -> result B) (P : B -> Prop) l ys,
  (forall x y, f x = Ok y -> P y) -> mapM f l = Ok ys -> Forall P ys.
Proof.
  intros A B f P l ys Hf Hm. apply mapM_Forall2 in Hm.
  induction Hm as [|x y l ys Hxy _ IH]; constructor; [exact (Hf x y Hxy)|exact IH].
Qed.

Lemma Forall_concat_of : forall {A} (P : A -> Prop) ls,
  Forall (Forall P) ls -> Forall P (List.concat ls).
Proof.
  intros A P ls H. apply Forall_forall. intros x Hx. apply in_concat in Hx as (l & Hl & Hx).
  rewrite Forall_forall in H. specialize (H l Hl). rewrite Forall_forall in H. exact (H x Hx).
Qed.

Lemma records_of_dates : forall h d gs, records_of h d = Ok gs -> Forall has_date gs.
Proof.
  intros h d gs H. unfold records_of in H.
  apply bind_ok_inv in H as (c & _ & H). apply bind_ok_inv in H as (ps & Hps & H).
  apply bind_ok_inv in H as (is & His & H). apply bind_ok_inv in H as (cs & Hcs & H).
  injection H as <-. apply Forall_app. split; [|apply Forall_app; split].
  - unfold pr_part in Hps. apply bind_ok_inv in Hps as (prs & _ & Hps).
    exact (mapM_Forall _ _ _ _ (pr_fields_date h) Hps).
  - unfold issue_part in His. apply bind_ok_inv in His as (iss & _ & His).
    exact (mapM_Forall _ _ _ _ (issue_fields_date h) His).
  - unfold commit_part in Hcs. apply bind_ok_inv in Hcs as (repos & _ & Hcs).
    apply bind_ok_inv in Hcs as (css & Hcss & Hcs). injection Hcs as <-.
    apply Forall_concat_of. refine (mapM_Forall _ _ _ _ _ Hcss).
    intros repo ys Hy. apply bind_ok_inv in Hy as (commits & _ & Hy).
    exact (mapM_Forall _ _ _ _ (commit_fields_date h repo) Hy).
Qed.

Lemma seq_view_ext : forall hh ext v r, seq_view hh v = Ok r -> seq_view (hh ++ ext)%list v = Ok r.
Proof.
  intros hh ext [| | | |l] r; cbn; try discriminate.
  destruct (nth_error hh l) as [[xs|kvs]|] eqn:E; try discriminate. intros Hm.
  rewrite nth_error_app1 by (apply nth_error_Some; congruence). rewrite E.
  apply Forall2_mapM. apply mapM_Forall2 in Hm. clear E.
  induction Hm as [|x y xs' ys Hxy _ IH]; [constructor|constructor; [|exact IH]].
  unfold record_view in *. destruct x as [| | | |l']; try discriminate.
  destruct (nth_error hh l') eqn:E'; try discriminate.
  rewrite nth_error_app1 by (apply nth_error_Some; congruence). rewrite E'. exact Hxy.
Qed.

Lemma firstn_prefix : forall {A} (l ext : list A), firstn (List.length l) (l ++ ext)%list = l.
Proof. intros A l ext. rewrite firstn_app, Nat.sub_diag, firstn_all, firstn_O, app_nil_r. reflexivity. Qed.

Section Closed.
Variable h : heap.
Hypothesis Hh : closed_heapb h = true.

Lemma closed_heap_obj : forall l o, nth_error h l = Some o ->
  closed_objb (List.length h) o = true.
Proof.
  intros l o E. unfold closed_heapb in Hh. rewrite forallb_forall in Hh.
  apply Hh. eapply nth_error_In. exact E.
Qed.

Lemma getitem_stable : forall j v k, closed_valb (List.length h) v = true ->
  getitem (h ++ j)%list v k = getitem h v k.
Proof.
  intros j [| | | |l] k Hv; try reflexivity. cbn in Hv. apply Nat.ltb_lt in Hv.
  cbn. rewrite nth_error_app1 by exact Hv. reflexivity.
Qed.

Lemma getitem_closed : forall v k w, closed_valb (List.length h) v = true ->
  getitem h v k = Ok w -> closed_valb (List.length h) w = true.
Proof.
  intros [| | | |l] k w Hv; cbn; try discriminate.
  destruct (nth_error h l) as [[xs|kvs]|] eqn:E; try discriminate.
  destruct (find_key k kvs) as [x|] eqn:F; [|discriminate]. intros [= <-].
  apply closed_heap_obj in E. cbn in E. rewrite forallb_forall in E.
  apply find_key_in in F. exact (E _ F).
Qed.

Lemma py_iter_stable : forall j v, closed_valb (List.length h) v = true ->
  py_iter (h ++ j)%list v = py_iter h v.
Proof.
  intros j [| | | |l] Hv; try reflexivity. cbn in Hv. apply Nat.ltb_lt in Hv.
  cbn. rewrite nth_error_app1 by exact Hv. reflexivity.
Qed.

Lemma py_iter_closed : forall v xs, closed_valb (List.length h) v = true ->
  py_iter h v = Ok xs -> Forall (fun x => closed_valb (List.length h) x = true) xs.
Proof.
  intros [| | | s |l] xs Hv; cbn; try discriminate.
  - intros [= <-]. apply Forall_forall. intros x Hx. apply in_map_iff in Hx as (c & <- & _).
    reflexivity.
  - destruct (nth_error h l) as [[ys|kvs]|] eqn:E; try discriminate; intros [= <-].
    + apply closed_heap_obj in E. cbn in E. apply Forall_forall.
      rewrite forallb_forall in E. exact E.
    + apply Forall_forall. intros x Hx. apply in_map_iff in Hx as (kv & <- & _).
      reflexivity.
Qed.

Lemma not_in_vis : forall (l : nat) vis, existsb (Nat.eqb l) vis = false -> ~ In l vis.
Proof.
  intros l vis E Hin. assert (existsb (Nat.eqb l) vis = true) as T.
  { apply existsb_exists. exists l. split; [exact Hin|apply Nat.eqb_refl]. }
  congruence.
Qed.

Lemma vis_bound : forall (l : nat) vis, NoDup (l :: vis) ->
  (forall x, In x (l :: vis) -> x < List.length h)%nat -> (S (List.length vis) <= List.length h)%nat.
Proof.
  intros l vis Hnd Hin. change (S (List.length vis)) with (List.length (l :: vis)).
  rewrite <- (length_seq (List.length h) 0). apply NoDup_incl_length; [exact Hnd|].
  intros x Hx. apply in_seq. specialize (Hin x Hx). lia.
Qed.

Lemma repr_at_stable : forall fuel fuel' j vis v,
  closed_valb (List.length h) v = true -> NoDup vis ->
  (forall x, In x vis -> x < List.length h)%nat ->
  (List.length h - List.length vis < fuel)%nat -> (List.length h - List.length vis < fuel')%nat ->
  repr_at fuel (h ++ j)%list vis v = repr_at fuel' h vis v.
Proof.
  induction fuel as [|f IH]; intros fuel' j vis v Hv Hnd Hvis H1 H2; [lia|].
  destruct fuel' as [|f']; [lia|].
  destruct v as [| | | |l]; try reflexivity.
  cbn in Hv. apply Nat.ltb_lt in Hv.
  cbn [repr_at]. rewrite nth_error_app1 by exact Hv.
  destruct (nth_error h l) as [[xs|kvs]|] eqn:E; try reflexivity;
    destruct (existsb (Nat.eqb l) vis) eqn:Ev; try reflexivity;
    apply not_in_vis in Ev;
    assert (Hnd' : NoDup (l :: vis)) by (constructor; assumption);
    assert (Hvis' : forall x, In x (l :: vis) -> (x < List.length h)%nat)
      by (intros x [<-|Hx]; [exact Hv|exact (Hvis x Hx)]);
    pose proof (vis_bound l vis Hnd' Hvis') as Hb;
    apply closed_heap_obj in E; cbn in E; rewrite forallb_forall in E.
  - replace (map (repr_at f (h ++ j)%list (l :: vis)) xs)
      with (map (repr_at f' h (l :: vis)) xs); [reflexivity|].
    apply map_ext_in. intros x Hx. symmetry. apply IH; try assumption.
    + exact (E x Hx).
    + cbn [List.length]. lia.
    + cbn [List.length]. lia.
  - replace (map (fun kv => str_repr (fst kv) ++ ": " ++ repr_at f (h ++ j)%list (l :: vis) (snd kv)) kvs)
      with (map (fun kv => str_repr (fst kv) ++ ": " ++ repr_at f' h (l :: vis) (snd kv)) kvs);
      [reflexivity|].
    apply map_ext_in. intros kv Hkv. f_equal. f_equal. symmetry. apply IH; try assumption.
    + exact (E kv Hkv).
    + cbn [List.length]. lia.
    + cbn [List.length]. lia.
Qed.

Lemma py_str_stable : forall j v, closed_valb (List.length h) v = true ->
  py_str (h ++ j)%list v = py_str h v.
Proof.
  intros j v Hv.
  assert (Hr : repr_at (S (List.length (h ++ j)%list)) (h ++ j)%list [] v
               = repr_at (S (List.length h)) h [] v).
  { apply repr_at_stable.
    - exact Hv.
    - apply NoDup_nil.
    - intros x [].
    - rewrite length_app. cbn [List.length]. lia.
    - cbn [List.length]. lia. }
  destruct v; [exact Hr|exact Hr|exact Hr|reflexivity|exact Hr].
Qed.

Ltac stable_reads :=
  repeat match goal with
  | |- getitem _ _ _ = getitem _ _ _ => apply getitem_stable; assumption
  | |- py_iter _ _ = py_iter _ _ => apply py_iter_stable; assumption
  | |- bind _ _ = bind _ _ =>
      apply bind_congr;
      [ first [ apply getitem_stable | apply py_iter_stable | reflexivity ]; assumption
      | let a := fresh "a" in let Ha := fresh "Ha" in
        let Hc := fresh "Hc" in
        intros a Ha;
        try (pose proof (fun Hv => getitem_closed _ _ _ Hv Ha) as Hc;
             specialize (Hc ltac:(assumption))) ]
  end.

Lemma pr_fields_stable : forall j pr, closed_valb (List.length h) pr = true ->
  pr_fields (h ++ j)%list pr = pr_fields h pr.
Proof. intros j pr Hpr. unfold pr_fields. stable_reads. reflexivity. Qed.

Lemma issue_fields_stable : forall j i, closed_valb (List.length h) i = true ->
  issue_fields (h ++ j)%list i = issue_fields h i.
Proof. intros j i Hi. unfold issue_fields. stable_reads. reflexivity. Qed.

Lemma commit_fields_stable : forall j repo c,
  closed_valb (List.length h) repo = true -> closed_valb (List.length h) c = true ->
  commit_fields (h ++ j)%list repo c = commit_fields h repo c.
Proof.
  intros j repo c Hr Hc0. unfold commit_fields. stable_reads.
  rewrite !py_str_stable by assumption. reflexivity.
Qed.


Ltac closed_of E :=
  first [ let Hc := fresh "Hc" in
          pose proof (fun Hv => getitem_closed _ _ _ Hv E) as Hc; specialize (Hc ltac:(assumption))
        | let Hc := fresh "Hc" in
          pose proof (fun Hv => py_iter_closed _ _ Hv E) as Hc; specialize (Hc ltac:(assumption)) ].

Ltac derive_closed H :=
  repeat match type of H with
  | bind _ _ = Ok _ =>
      let a := fresh "x" in let E := fresh "E" in
      apply bind_ok_inv in H as (a & E & H); try closed_of E
  end; try closed_of H.

Lemma pr_loop_emits : forall j c, closed_valb (List.length h) c = true ->
  emits (h ++ j)%list (pr_loop (List.length (h ++ j)%list) c) (pr_part h c).
Proof.
  intros j c Hc0. unfold pr_loop, pr_part. apply read_emits.
  - intros fs; unfold st; rewrite <- app_assoc; stable_reads.
  - intros prs Hprs. derive_closed Hprs.
    eapply emits_eq; [|apply mapM_singleton]. apply for_each_emits.
    intros pr Hin. apply add_record_emits. intros fs; unfold st; rewrite <- app_assoc.
    apply pr_fields_stable.
    match goal with Hf : Forall _ prs |- _ => rewrite Forall_forall in Hf; exact (Hf pr Hin) end.
Qed.

Lemma issue_loop_emits : forall j c, closed_valb (List.length h) c = true ->
  emits (h ++ j)%list (issue_loop (List.length (h ++ j)%list) c) (issue_part h c).
Proof.
  intros j c Hc0. unfold issue_loop, issue_part. apply read_emits.
  - intros fs; unfold st; rewrite <- app_assoc; stable_reads.
  - intros iss Hiss. derive_closed Hiss.
    eapply emits_eq; [|apply mapM_singleton]. apply for_each_emits.
    intros i Hin. apply add_record_emits. intros fs; unfold st; rewrite <- app_assoc.
    apply issue_fields_stable.
    match goal with Hf : Forall _ iss |- _ => rewrite Forall_forall in Hf; exact (Hf i Hin) end.
Qed.

Lemma commit_loop_emits : forall j c, closed_valb (List.length h) c = true ->
  emits (h ++ j)%list (commit_loop (List.length (h ++ j)%list) c) (commit_part h c).
Proof.
  intros j c Hc0. unfold commit_loop, commit_part. apply read_emits.
  - intros fs; unfold st; rewrite <- app_assoc; stable_reads.
  - intros repos Hrepos. derive_closed Hrepos. apply for_each_emits.
    intros repo Hin.
    assert (Hr : closed_valb (List.length h) repo = true).
    { match goal with Hf : Forall _ repos |- _ => rewrite Forall_forall in Hf; exact (Hf repo Hin) end. }
    apply read_emits.
    + intros fs; unfold st; rewrite <- app_assoc; stable_reads.
    + intros commits Hcm. derive_closed Hcm.
      eapply emits_eq; [|apply mapM_singleton]. apply for_each_emits.
      intros cm Hcin. apply add_record_emits. intros fs; unfold st; rewrite <- app_assoc.
      apply commit_fields_stable; [exact Hr|].
      match goal with Hf : Forall _ commits |- _ => rewrite Forall_forall in Hf; exact (Hf cm Hcin) end.
Qed.

Lemma collect_emits : forall j d, closed_valb (List.length h) d = true ->
  emits (h ++ j)%list (collect (List.length (h ++ j)%list) d) (records_of h d).
Proof.
  intros j d Hd. unfold collect, records_of. apply read_emits.
  - intros fs; unfold st; rewrite <- app_assoc; stable_reads.
  - intros c Hcol. derive_closed Hcol.
    eapply emits_eq.
    + apply seq_emits; [apply pr_loop_emits; assumption|].
      apply seq_emits; [apply issue_loop_emits; assumption|apply commit_loop_emits; assumption].
    + destruct (pr_part h c), (issue_part h c), (commit_part h c); reflexivity.
Qed.

(** A call on a heap that extends [h] only adds objects after it, and what
    it returns is the sorted records read off [h] (or the error that
    reading raises). *)
Lemma process_run : forall j d, closed_valb (List.length h) d = true ->
  exists ext,
    snd (process_contributions d (h ++ j)%list) = ((h ++ j) ++ ext)%list /\
    match fst (process_contributions d (h ++ j)%list) with
    | Ok v => exists recs, normalize_heap h d = Ok recs /\
                           seq_view (snd (process_contributions d (h ++ j)%list)) v = Ok recs
    | Err e => normalize_heap h d = Err e
    end.
Proof.
  intros j d Hd. pose proof (collect_emits j d Hd []) as Hc.
  unfold process_contributions, mbind, alloc. cbv beta iota.
  change ((h ++ j) ++ [OList []])%list with (st (h ++ j)%list []).
  unfold normalize_heap.
  destruct (records_of h d) as [gs|e] eqn:Hr.
  - cbv beta iota in Hc. cbn [app] in Hc. unfold mbind. rewrite !Hc.
    destruct (sorted_phase (h ++ j)%list gs (records_of_dates _ _ _ Hr)) as (v & ext & Hs & Hv).
    rewrite !Hs. cbn [fst snd bind].
    exists (OList (map VRef (seq (S (List.length (h ++ j)%list)) (List.length gs)))
              :: map ODict gs ++ ext)%list.
    split.
    + unfold st. rewrite <- !app_assoc. reflexivity.
    + exists (sorted_desc field_date gs). split; [reflexivity|exact Hv].
  - cbv beta iota in Hc. destruct Hc as [fs' Hc]. unfold mbind. rewrite !Hc. cbn [fst snd bind].
    exists (OList (map VRef (seq (S (List.length (h ++ j)%list)) (List.length fs')))
              :: map ODict fs')%list.
    split; reflexivity.
Qed.

End Closed.



(** C9: [normalize] ([process_contributions]) is a pure function. Run it on
    a heap [h] whose objects refer only to objects of [h], on any value [d]
    of [h], and then run it again on the heap the first call left. Each call
    only adds objects: the input heap, and the aggregate in it, come back
    unchanged. The two calls raise the same error, or they return two lists
    that hold the same records, read after both calls. *)
Theorem normalize_is_pure : forall h d r1 h1 r2 h2,
  closed_heapb h = true -> closed_valb (List.length h) d = true ->
  process_contributions d h = (r1, h1) -> process_contributions d h1 = (r2, h2) ->
  firstn (List.length h) h1 = h /\ firstn (List.length h1) h2 = h1 /\
  ((exists e, r1 = Err e /\ r2 = Err e) \/
   (exists v1 v2 recs, r1 = Ok v1 /\ r2 = Ok v2 /\
                       seq_view h2 v1 = Ok recs /\ seq_view h2 v2 = Ok recs)).
Proof.
  intros h d r1 h1 r2 h2 Hh Hd E1 E2.
  destruct (process_run h Hh [] d Hd) as (ext1 & Hs1 & Hr1).
  rewrite app_nil_r in Hs1, Hr1. rewrite E1 in Hs1, Hr1. cbn [fst snd] in Hs1, Hr1. subst h1.
  destruct (process_run h Hh ext1 d Hd) as (ext2 & Hs2 & Hr2).
  rewrite E2 in Hs2, Hr2. cbn [fst snd] in Hs2, Hr2. subst h2.
  split; [apply firstn_prefix|]. split; [apply firstn_prefix|].
  destruct r1 as [v1|e1], r2 as [v2|e2].
  - right. destruct Hr1 as (recs & Hn & Hv1). destruct Hr2 as (recs' & Hn' & Hv2).
    rewrite Hn in Hn'. injection Hn' as <-.
    exists v1, v2, recs. split; [reflexivity|]. split; [reflexivity|].
    split; [apply seq_view_ext; exact Hv1|exact Hv2].
  - destruct Hr1 as (recs & Hn & _). congruence.
  - destruct Hr2 as (recs & Hn & _). congruence.
  - left. exists e1. split; [reflexivity|]. congruence.
Qed.

(** The two calls on the sample object graph: both return the three
    records, newest first. *)
Lemma normalize_is_pure_witness :
  let r1h1 := process_contributions (VRef 0) Samples.sample_heap in
  let r2h2 := process_contributions (VRef 0) (snd r1h1) in
  firstn (List.length Samples.sample_heap) (snd r1h1) = Samples.sample_heap /\
  firstn (List.length (snd r1h1)) (snd r2h2) = snd r1h1 /\
  ((exists e, fst r1h1 = Err e /\ fst r2h2 = Err e) \/
   (exists v1 v2 recs, fst r1h1 = Ok v1 /\ fst r2h2 = Ok v2 /\
                       seq_view (snd r2h2) v1 = Ok recs /\ seq_view (snd r2h2) v2 = Ok recs)).
Proof.
  intros r1h1 r2h2.
  apply (normalize_is_pure Samples.sample_heap (VRef 0)
           (fst r1h1) (snd r1h1) (fst r2h2) (snd r2h2)).
  - vm_compute. reflexivity.
  - vm_compute. reflexivity.
  - apply surjective_pairing.
  - apply surjective_pairing.
Defined.

End Purity.

(** * The report, the progress output and [main] *)

(** ** Filtering commutes with the stable descending sort *)

Section SortedDescFilter.
Variable A : Type.
Variable key : A -> string.

Lemma insert_desc_front : forall x l,
  (forall z, In z l -> String.ltb (key z) (key x) = true) -> insert_desc key x l = x :: l.
Proof. intros x [|y l] H; cbn; [reflexivity|]. rewrite (H y (or_introl eq_refl)). reflexivity. Qed.

Lemma filter_insert_desc : forall (p : A -> bool) x l, Sorted (desc key) l ->
  filter p (insert_desc key x l) = if p x then insert_desc key x (filter p l) else filter p l.
Proof.
  intros p x l. induction l as [|y l IH]; intros Hs.
  - cbn. destruct (p x); reflexivity.
  - cbn [insert_desc]. destruct (String.ltb (key y) (key x)) eqn:Hyx.
    + assert (Hf : forall z, In z (filter p (y :: l)) -> In z (y :: l))
        by (intros z Hz; apply filter_In in Hz; apply Hz).
      cbn [filter]. destruct (p x) eqn:Hpx; [|reflexivity].
      symmetry. apply insert_desc_front. intros z Hz. pose proof (Hf z Hz) as Hz'. clear Hz. rename Hz' into Hz.
      destruct Hz as [<-|Hz]; [exact Hyx|].
      assert (Hss : StronglySorted (desc key) (y :: l)).
      { apply Sorted_StronglySorted; [|exact Hs]. intros a b c. apply desc_trans. }
      inversion Hss as [|? ? _ Hall]; subst. rewrite Forall_forall in Hall.
      specialize (Hall z Hz). unfold desc in Hall. apply str_ltb_false_iff in Hall.
      assert (Hl : String.compare (key y) (key x) = Lt).
      { unfold String.ltb in Hyx. destruct (String.compare (key y) (key x)); congruence. }
      assert (Hzy : String.compare (key z) (key y) <> Gt).
      { rewrite String.compare_antisym. destruct (String.compare (key y) (key z)); cbn; congruence. }
      assert (Hyx' : String.compare (key y) (key x) <> Gt) by congruence.
      pose proof (proj2 (str_compare_trans (key z) (key y) (key x) Hzy Hyx') (or_intror Hl)) as Hzx.
      unfold String.ltb. rewrite Hzx. reflexivity.
    + inversion Hs as [|? ? Hl _]; subst.
      cbn [filter]. rewrite (IH Hl).
      destruct (p y) eqn:Hpy, (p x) eqn:Hpx; cbn [insert_desc]; try rewrite Hyx; reflexivity.
Qed.

Lemma filter_fold_insert : forall p l acc, Sorted (desc key) acc ->
  filter p (fold_left (fun acc x => insert_desc key x acc) l acc)
  = fold_left (fun acc x => insert_desc key x acc) (filter p l) (filter p acc).
Proof.
  intros p l. induction l as [|x l IH]; intros acc Hs; [reflexivity|].
  cbn [fold_left]. rewrite IH by (apply insert_desc_sorted; exact Hs).
  rewrite filter_insert_desc by exact Hs.
  cbn [filter]. destruct (p x); reflexivity.
Qed.

Lemma sorted_desc_filter : forall p l,
  filter p (sorted_desc key l) = sorted_desc key (filter p l).
Proof. intros p l. unfold sorted_desc. rewrite filter_fold_insert by constructor. reflexivity. Qed.

End SortedDescFilter.

(** ** Lemmas on the report *)

Lemma kind_items_app : forall lbl l1 l2,
  kind_items lbl (l1 ++ l2)%list = (kind_items lbl l1 ++ kind_items lbl l2)%list.
Proof. intros. unfold kind_items. apply filter_app. Qed.

Lemma kind_items_of_type : forall t lbl l, Forall (fun r => rec_type r = t) l ->
  kind_items lbl l = if String.eqb (type_label t) lbl then l else [].
Proof.
  intros t lbl l H. induction H as [|r l Hr _ IH]; unfold kind_items in *.
  - destruct (String.eqb (type_label t) lbl); reflexivity.
  - cbn [filter]. rewrite Hr, IH. destruct (String.eqb (type_label t) lbl); reflexivity.
Qed.

Lemma records_type : forall {X} (f : X -> result ContributionRecord) t xs rs,
  (forall x r, f x = Ok r -> rec_type r = t) -> mapM f xs = Ok rs ->
  Forall (fun r => rec_type r = t) rs.
Proof.
  intros X f t xs rs Hf Hm. apply mapM_Forall2 in Hm.
  induction Hm as [|x r xs rs Hxr _ IH]; constructor; [exact (Hf x r Hxr)|exact IH].
Qed.

Lemma pr_records_type : forall agg ps, pr_records agg = Ok ps ->
  Forall (fun r => rec_type r = PullRequestT) ps.
Proof.
  intros agg ps H. eapply records_type; [|exact H]. intros x r Hx.
  unfold pr_record in Hx. destruct (to_day (pr_createdAt x)); cbn in Hx; [|discriminate Hx].
  injection Hx as <-. reflexivity.
Qed.

Lemma issue_records_type : forall agg iss, issue_records agg = Ok iss ->
  Forall (fun r => rec_type r = IssueT) iss.
Proof.
  intros agg iss H. eapply records_type; [|exact H]. intros x r Hx.
  unfold issue_record in Hx. destruct (to_day (is_createdAt x)); cbn in Hx; [|discriminate Hx].
  injection Hx as <-. reflexivity.
Qed.

Lemma commit_records_type : forall agg cs, commit_records agg = Ok cs ->
  Forall (fun r => rec_type r = CommitT) cs.
Proof.
  intros agg cs H. apply commit_records_Forall2 in H.
  induction H as [|rc r rcs rs Hr _ IH]; constructor; [|exact IH].
  unfold commit_record in Hr. destruct (to_day (cm_occurredAt (snd rc))); cbn in Hr; [|discriminate Hr].
  injection Hr as <-. reflexivity.
Qed.

Lemma normalize_sections : forall agg out, normalize agg = Ok out ->
  exists ps iss cs,
    pr_records agg = Ok ps /\ issue_records agg = Ok iss /\ commit_records agg = Ok cs /\
    kind_items "Pull Request" out = sorted_desc rec_date ps /\
    kind_items "Issue" out = sorted_desc rec_date iss /\
    kind_items "Commit" out = sorted_desc rec_date cs.
Proof.
  intros agg out H. destruct (normalize_inv agg out H) as (ps & iss & cs & Hp & Hi & Hc & _ & ->).
  exists ps, iss, cs. do 3 (split; [assumption|]).
  pose proof (pr_records_type _ _ Hp) as Tp.
  pose proof (issue_records_type _ _ Hi) as Ti.
  pose proof (commit_records_type _ _ Hc) as Tc.
  pose proof (fun lbl => kind_items_of_type _ lbl _ Tp) as Kp.
  pose proof (fun lbl => kind_items_of_type _ lbl _ Ti) as Ki.
  pose proof (fun lbl => kind_items_of_type _ lbl _ Tc) as Kc.
  unfold kind_items in *. rewrite !sorted_desc_filter, !filter_app, !Kp, !Ki, !Kc.
  cbn. rewrite !app_nil_r. repeat split.
Qed.

Lemma normalize_counts : forall agg out, normalize agg = Ok out ->
  pr_count out = List.length (agg_prs agg) /\
  issue_count out = List.length (agg_issues agg) /\
  commit_count out = commit_occurrences agg.
Proof.
  intros agg out H.
  destruct (normalize_sections agg out H) as (ps & iss & cs & Hp & Hi & Hc & Kp & Ki & Kc).
  unfold pr_count, issue_count, commit_count. rewrite Kp, Ki, Kc.
  rewrite !(Permutation_length (sorted_desc_perm _ rec_date _)).
  apply mapM_Forall2, Forall2_length_eq in Hp.
  apply mapM_Forall2, Forall2_length_eq in Hi.
  apply commit_records_Forall2, Forall2_length_eq in Hc.
  rewrite commit_entries_length in Hc. auto.
Qed.

Lemma length_concat_map : forall {X Y} (f : X -> list Y) l,
  List.length (List.concat (map f l)) = list_sum (map (fun x => List.length (f x)) l).
Proof.
  intros X Y f l. induction l as [|x l IH]; cbn; [reflexivity|].
  rewrite length_app, IH. reflexivity.
Qed.

Lemma section_writes_In : forall h heading line items,
  In h (section_writes heading line items) ->
  items <> [] /\
  (h = "### " ++ heading ++ nl ++ nl \/ (exists c, h = line c) \/ h = nl).
Proof.
  intros h heading line [|c items] H; [destruct H|].
  split; [discriminate|]. cbn in H. destruct H as [<-|H]; [left; reflexivity|].
  destruct H as [<-|H]; [right; left; exists c; reflexivity|].
  apply in_app_or in H as [H|[<-|[]]]; [|right; right; reflexivity].
  apply in_map_iff in H as (c' & <- & _). right; left. exists c'. reflexivity.
Qed.

Lemma section_writes_title : forall heading line items, items <> [] ->
  In ("### " ++ heading ++ nl ++ nl) (section_writes heading line items).
Proof. intros heading line [|c items] H; [contradiction|]. left. reflexivity. Qed.

(** The only lines of the report that start with [###] are the titles of
    the sections that are written. *)
Lemma export_writes_In : forall h cs u o, In h (export_writes cs u o) ->
  String.prefix "###" h = false \/
  (h = "### Pull Requests" ++ nl ++ nl /\ kind_items "Pull Request" cs <> []) \/
  (h = "### Issues" ++ nl ++ nl /\ kind_items "Issue" cs <> []) \/
  (h = "### Commits" ++ nl ++ nl /\ kind_items "Commit" cs <> []).
Proof.
  intros h cs u o H. unfold export_writes in H. rewrite !in_app_iff in H.
  destruct H as [H|[H|[H|H]]].
  - repeat (destruct H as [<-|H]; [left; reflexivity|]). destruct H.
  - apply section_writes_In in H as [Hn [->|[[c ->]| ->]]];
      [right; left; split; [reflexivity|exact Hn]|left; reflexivity|left; reflexivity].
  - apply section_writes_In in H as [Hn [->|[[c ->]| ->]]];
      [right; right; left; split; [reflexivity|exact Hn]|left; reflexivity|left; reflexivity].
  - apply section_writes_In in H as [Hn [->|[[c ->]| ->]]];
      [right; right; right; split; [reflexivity|exact Hn]|left; reflexivity|left; reflexivity].
Qed.

(** ** Lemmas on the file store *)

Lemma write_file_other : forall fs name contents n, n <> name ->
  write_file fs name contents n = fs n.
Proof. intros fs name contents n Hn. unfold write_file. apply String.eqb_neq in Hn. rewrite Hn. reflexivity. Qed.

Lemma write_file_same : forall fs name contents, write_file fs name contents name = Some contents.
Proof. intros fs name contents. unfold write_file. rewrite String.eqb_refl. reflexivity. Qed.

Lemma string_app_nil_r : forall s, (s ++ EmptyString)%string = s.
Proof. induction s as [|c s IH]; cbn; [reflexivity|]. rewrite IH. reflexivity. Qed.

Lemma string_app_assoc : forall a b c, (a ++ (b ++ c))%string = ((a ++ b) ++ c)%string.
Proof. induction a as [|x a IH]; intros b c; cbn; [reflexivity|]. rewrite IH. reflexivity. Qed.

Lemma substring_prefix : forall n s, exists rest, (substring 0 n s ++ rest)%string = s.
Proof.
  induction n as [|n IH]; intros s; (destruct s as [|c s]; [exists EmptyString; reflexivity|]).
  - exists (String c s). reflexivity.
  - destruct (IH s) as [rest Hr]. exists rest. cbn. rewrite Hr. reflexivity.
Qed.

Lemma concat_strings_app : forall ws1 ws2,
  concat_strings (ws1 ++ ws2)%list = (concat_strings ws1 ++ concat_strings ws2)%string.
Proof.
  induction ws1 as [|w ws1 IH]; intros ws2; cbn; [reflexivity|].
  unfold concat_strings in IH. rewrite IH. apply string_app_assoc.
Qed.

(** After a failed write the file holds a prefix of the whole report text. *)
Lemma write_fault_prefix : forall k n ws,
  exists rest, (substring 0 n (concat_strings (firstn k ws)) ++ rest)%string = concat_strings ws.
Proof.
  intros k n ws.
  destruct (substring_prefix n (concat_strings (firstn k ws))) as [r Hr].
  exists (r ++ concat_strings (skipn k ws))%string.
  rewrite string_app_assoc, Hr, <- concat_strings_app, firstn_skipn. reflexivity.
Qed.

(** ** Lemmas on the progress output *)

Lemma fetch_loop_io_agrees : forall rs c acc t,
  let '(tr, out, _) := fetch_loop_io c acc t rs in fetch_loop c acc t rs = (tr, out).
Proof.
  induction rs as [|r rs IH]; intros c acc t; [reflexivity|].
  destruct r as [|[[errs|] [cd|]]]; cbn [fetch_loop fetch_loop_io errors page]; try reflexivity.
  destruct (absorb acc t cd) as [acc' t'].
  destruct (hasNextPage cd); [|reflexivity].
  specialize (IH (endCursor cd) acc' t').
  destruct (fetch_loop_io (endCursor cd) acc' t' rs) as [[tr' out'] log'].
  rewrite IH. reflexivity.
Qed.

Lemma absorb_total : forall acc t cd,
  snd (absorb acc t cd) = (t + List.length (pr_nodes cd))%nat.
Proof. reflexivity. Qed.

Lemma absorb_prs : forall acc t cd,
  agg_prs (fst (absorb acc t cd)) = (agg_prs acc ++ pr_nodes cd)%list.
Proof. reflexivity. Qed.

Lemma fetch_log_chain : forall ps rest c acc t,
  page_chain ps ->
  exists tr agg log,
    fetch_loop_io c acc t (map ok_page ps ++ rest)%list = (tr, Done agg, log) /\
    fetched_counts log = prefix_sums t (map (fun cd => List.length (pr_nodes cd)) ps) /\
    expected_totals log
      = (if Nat.eqb t 0 then map totalPullRequestContributions (upto_first_batch ps) else []) /\
    exists log', log = (log' ++ [TotalFetched (t + batch_sizes ps)])%list.
Proof.
  intros ps rest c acc t Hc. revert c acc t.
  induction Hc as [cd Hn|cd ps Hn Hc IH]; intros c acc t;
    cbn [map app fetch_loop_io ok_page errors page].
  - rewrite Hn. eexists _, _, _. split; [reflexivity|].
    split; [|split].
    + unfold fetched_counts. rewrite !flat_map_app. destruct (Nat.eqb t 0); reflexivity.
    + unfold expected_totals. rewrite !flat_map_app. destruct (Nat.eqb t 0); [|reflexivity].
      cbn. destruct (pr_nodes cd); reflexivity.
    + replace (batch_sizes [cd]) with (List.length (pr_nodes cd)) by (unfold batch_sizes; cbn; lia).
      eexists. reflexivity.
  - rewrite Hn.
    destruct (IH (endCursor cd) (fst (absorb acc t cd)) (t + List.length (pr_nodes cd))%nat)
      as (tr & agg & log & Hl & Hf & He & log' & Ht).
    cbn [absorb fst] in Hl. cbn [absorb]. rewrite Hl.
    eexists _, _, _. split; [reflexivity|].
    unfold fetched_counts, expected_totals in *.
    rewrite !flat_map_app, Hf, He. split; [|split].
    + destruct (Nat.eqb t 0); reflexivity.
    + destruct (Nat.eqb t 0) eqn:Ht0; cbn.
      * apply Nat.eqb_eq in Ht0. subst t.
        destruct (pr_nodes cd); cbn; reflexivity.
      * replace (Nat.eqb (t + List.length (pr_nodes cd)) 0) with false; [reflexivity|].
        symmetry. apply Nat.eqb_neq. apply Nat.eqb_neq in Ht0. lia.
    + rewrite Ht.
      change (batch_sizes (cd :: ps)) with (List.length (pr_nodes cd) + batch_sizes ps)%nat.
      rewrite Nat.add_assoc.
      rewrite app_assoc. eexists. reflexivity.
Qed.

Lemma fetch_log_total : forall rs c acc t tr out log,
  t = List.length (agg_prs acc) ->
  fetch_loop_io c acc t rs = (tr, out, log) ->
  (forall agg, out = Done agg ->
     exists log', log = (log' ++ [TotalFetched (List.length (agg_prs agg))])%list) /\
  (forall n, In (TotalFetched n) log -> exists agg, out = Done agg).
Proof.
  induction rs as [|r rs IH]; intros c acc t tr out log Ht H.
  - injection H as <- <- <-. split; [discriminate|]. intros n [].
  - destruct r as [|[[errs|] [cd|]]]; cbn [fetch_loop_io errors page] in H;
      try (injection H as <- <- <-; split; [discriminate|intros n []]).
    cbn [absorb] in H.
    assert (Ht' : (t + List.length (pr_nodes cd))%nat
                  = List.length (agg_prs acc ++ pr_nodes cd)%list)
      by (rewrite length_app; lia).
    destruct (hasNextPage cd).
    + destruct (fetch_loop_io (endCursor cd) _ _ rs) as [[tr' out'] log'] eqn:E.
      injection H as <- <- <-.
      pose proof (fun H0 => IH _ _ _ _ _ _ H0 E) as HI.
      destruct (HI Ht') as [H1 H2]. split.
      * intros agg Hagg. destruct (H1 agg Hagg) as [l Hl]. rewrite Hl.
        eexists. rewrite app_assoc. reflexivity.
      * intros n Hin. apply in_app_or in Hin as [Hin|Hin]; [|exact (H2 n Hin)].
        destruct (Nat.eqb t 0); cbn in Hin; intuition discriminate.
    + injection H as <- <- <-. split.
      * intros agg [= <-]. cbn. rewrite <- Ht'. eexists. reflexivity.
      * intros n _. eexists. reflexivity.
Qed.

(** ** Properties of the report, the fetch loop, [main] and the organisation lookup *)

Module Report.
Import Samples.

(** X1: for an aggregate that [normalize] accepts, the Summary of the
    report that [export_to_markdown] writes counts one pull request per
    pull-request entry, one issue per issue entry and one commit per commit
    occurrence of the aggregate. *)
Theorem report_counts_normalize : forall agg out,
  normalize agg = Ok out ->
  pr_count out = List.length (agg_prs agg) /\
  issue_count out = List.length (agg_issues agg) /\
  commit_count out = commit_occurrences agg.
Proof. exact normalize_counts. Qed.

Lemma report_counts_normalize_witness :
  exists out, normalize sample = Ok out /\
    pr_count out = 2%nat /\ issue_count out = 1%nat /\ commit_count out = 2%nat.
Proof.
  eexists. split; [vm_compute; reflexivity|].
  apply (report_counts_normalize sample). vm_compute. reflexivity.
Defined.

(** X2: for an aggregate that [normalize] accepts, each section of the
    report lists the records of its kind newest first, and records of one
    kind with the same date in the order of their entries in the aggregate
    (the records of that kind sorted on their own). *)
Theorem report_sections_normalize : forall agg out,
  normalize agg = Ok out ->
  exists ps iss cs,
    pr_records agg = Ok ps /\ issue_records agg = Ok iss /\ commit_records agg = Ok cs /\
    kind_items "Pull Request" out = sorted_desc rec_date ps /\
    kind_items "Issue" out = sorted_desc rec_date iss /\
    kind_items "Commit" out = sorted_desc rec_date cs.
Proof. exact normalize_sections. Qed.

Lemma report_sections_normalize_witness :
  exists out, normalize sample = Ok out /\
  exists ps iss cs,
    pr_records sample = Ok ps /\ issue_records sample = Ok iss /\
    commit_records sample = Ok cs /\
    kind_items "Pull Request" out = sorted_desc rec_date ps /\
    kind_items "Issue" out = sorted_desc rec_date iss /\
    kind_items "Commit" out = sorted_desc rec_date cs.
Proof.
  eexists. split; [vm_compute; reflexivity|].
  apply (report_sections_normalize sample). vm_compute. reflexivity.
Defined.

(** X12: a section of the report, with its [###] title, is written exactly
    when the contributions hold a record of its kind: an empty kind leaves
    no title behind. *)
Theorem report_section_written_iff : forall cs u o,
  (In ("### Pull Requests" ++ nl ++ nl) (export_writes cs u o) <-> kind_items "Pull Request" cs <> []) /\
  (In ("### Issues" ++ nl ++ nl) (export_writes cs u o) <-> kind_items "Issue" cs <> []) /\
  (In ("### Commits" ++ nl ++ nl) (export_writes cs u o) <-> kind_items "Commit" cs <> []).
Proof.
  intros cs u o.
  split; [|split]; split; intros H;
    try (apply export_writes_In in H as [H|[[E Hn]|[[E Hn]|[E Hn]]]];
         solve [exact Hn | vm_compute in H; discriminate H | vm_compute in E; discriminate E]);
    unfold export_writes; rewrite !in_app_iff; right;
    [left | right; left | right; right]; apply section_writes_title; exact H.
Qed.

End Report.

Module Progress.
Import Samples.

(** X4: on a chain of pages, the ["Fetched n PRs so far..."] lines that
    [fetch_contributions] prints carry the running totals of the pages'
    pull-request batches, one line per page, and the last line printed is
    ["Total PRs fetched: N"] with [N] the sum of the batch sizes. *)
Theorem fetch_log_running_totals : forall ps rest,
  page_chain ps ->
  exists tr agg log,
    fetch_loop_io None empty_aggregate 0 (map ok_page ps ++ rest)%list = (tr, Done agg, log) /\
    fetched_counts log = prefix_sums 0 (map (fun cd => List.length (pr_nodes cd)) ps) /\
    exists log', log = (log' ++ [TotalFetched (batch_sizes ps)])%list.
Proof.
  intros ps rest Hc.
  destruct (fetch_log_chain ps rest None empty_aggregate 0 Hc)
    as (tr & agg & log & H & Hf & _ & Ht).
  exists tr, agg, log. split; [exact H|]. split; [exact Hf|]. exact Ht.
Qed.

Lemma fetch_log_running_totals_witness :
  exists tr agg log,
    fetch_loop_io None empty_aggregate 0 (map ok_page [page_empty; page1; page2] ++ [])%list
      = (tr, Done agg, log) /\
    fetched_counts log = [0; 1; 2]%nat /\
    exists log', log = (log' ++ [TotalFetched 2])%list.
Proof.
  apply (fetch_log_running_totals [page_empty; page1; page2] []).
  repeat constructor.
Defined.

(** X5: ["Expected total PRs: ..."] is printed for every page until a page
    brings a pull request, not only for the first page: on a chain of
    pages, it is printed once for each page up to and including the first
    one with a non-empty batch (for every page if there is none). *)
Theorem fetch_log_expected_repeats : forall ps rest,
  page_chain ps ->
  exists tr agg log,
    fetch_loop_io None empty_aggregate 0 (map ok_page ps ++ rest)%list = (tr, Done agg, log) /\
    expected_totals log = map totalPullRequestContributions (upto_first_batch ps).
Proof.
  intros ps rest Hc.
  destruct (fetch_log_chain ps rest None empty_aggregate 0 Hc)
    as (tr & agg & log & H & _ & He & _).
  exists tr, agg, log. split; [exact H|]. exact He.
Qed.

Lemma fetch_log_expected_repeats_witness :
  exists tr agg log,
    fetch_loop_io None empty_aggregate 0 (map ok_page [page_empty; page1; page2] ++ [])%list
      = (tr, Done agg, log) /\
    expected_totals log = [2; 2]%Z.
Proof.
  apply (fetch_log_expected_repeats [page_empty; page1; page2] []).
  repeat constructor.
Defined.

(** X6: the number that ["Total PRs fetched"] prints is the number of pull
    requests in the aggregate [fetch_contributions] returns, and the line is
    printed only when the loop ends normally. *)
Theorem fetch_log_total_is_prs : forall rs tr out log,
  fetch_loop_io None empty_aggregate 0 rs = (tr, out, log) ->
  (forall agg, out = Done agg ->
     exists log', log = (log' ++ [TotalFetched (List.length (agg_prs agg))])%list) /\
  (forall n, In (TotalFetched n) log -> exists agg, out = Done agg).
Proof. intros rs tr out log H. exact (fetch_log_total rs None empty_aggregate 0 tr out log eq_refl H). Qed.

Lemma fetch_log_total_is_prs_witness :
  exists tr out log,
    fetch_loop_io None empty_aggregate 0 [ok_page page1; ok_page page2] = (tr, out, log) /\
    (forall agg, out = Done agg ->
       exists log', log = (log' ++ [TotalFetched (List.length (agg_prs agg))])%list) /\
    (forall n, In (TotalFetched n) log -> exists agg, out = Done agg).
Proof.
  eexists _, _, _. split; [vm_compute; reflexivity|].
  apply (fetch_log_total_is_prs [ok_page page1; ok_page page2] [None; Some "c1"]).
  vm_compute. reflexivity.
Defined.

(** X7: on a successful fetch, the pull-request list of the aggregate is
    the concatenation of the pages' batches, in the order of the pages, and
    one request is issued per page. *)
Theorem fetch_prs_in_page_order : forall rs tr agg,
  fetch rs = (tr, Done agg) ->
  exists ps rest,
    rs = (map ok_page ps ++ rest)%list /\ page_chain ps /\
    List.length tr = List.length ps /\
    agg_prs agg = List.concat (map pr_nodes ps).
Proof.
  intros rs tr agg H.
  destruct (fetch_loop_done_inv rs None empty_aggregate 0 tr agg H) as (ps & rest & Hr & Hc & Hl & Ha).
  exists ps, rest. repeat split; try assumption.
  rewrite Ha, fold_absorb_prs. reflexivity.
Qed.

Lemma fetch_prs_in_page_order_witness :
  exists ps rest,
    [ok_page page1; ok_page page2] = (map ok_page ps ++ rest)%list /\ page_chain ps /\
    List.length [None; Some "c1"] = List.length ps /\
    agg_prs (aggregate_of [page1; page2]) = List.concat (map pr_nodes ps).
Proof. apply (fetch_prs_in_page_order _ [None; Some "c1"]). reflexivity. Defined.

End Progress.

Module MainRun.
Import Samples.

(** X8: [main] changes no file but ["contributions.md"]. It either leaves
    the files as they were, or leaves ["contributions.md"] holding a prefix
    of the report of some contributions (possibly empty, after [open]
    truncated it and a write failed), the whole report when it finishes.
    It always prints ["Fetching contributions ..."] first, and its last line
    is ["Error: ..."] for the exception it raises again, or ["Successfully
    exported contributions to contributions.md"] when it finishes. *)
Theorem main_effects : forall username organization org_resp rs fs fault msgs res fs',
  main username organization org_resp rs fs fault = (msgs, res, fs') ->
  (forall n, n <> "contributions.md" -> fs' n = fs n) /\
  (fs' = fs \/
   exists out text rest,
     fs' = write_file fs "contributions.md" text /\
     (text ++ rest)%string = concat_strings (export_writes out username organization) /\
     (res = Finished -> rest = EmptyString)) /\
  (res = Waiting -> fs' = fs) /\
  (forall e, res = Raised e ->
     exists log, msgs = (Fetching username organization :: log ++ [ErrorMsg e])%list) /\
  (res = Finished ->
     exists log, msgs = (Fetching username organization :: log ++ [Exported "contributions.md"])%list).
Proof.
  intros u o org rs fs fault msgs res fs' H. unfold main in H.
  destruct (fetch_contributions_io org rs) as [[tr out] log].
  destruct out as [agg|e|].
  - destruct (normalize agg) as [out|e]; cbv beta iota zeta in H.
    + unfold export_to_markdown in H.
      destruct fault as [|e|k n e]; cbv beta iota zeta in H; injection H as <- <- <-.
      * split; [|split; [|split; [|split]]].
        -- intros n Hn. apply (write_file_other _ _ _ _ Hn).
        -- right. exists out, (concat_strings (export_writes out u o)), EmptyString.
           split; [reflexivity|]. split; [apply string_app_nil_r|reflexivity].
        -- intros [=].
        -- intros e' [=].
        -- intros _. eexists. reflexivity.
      * split; [|split; [|split; [|split]]]; try reflexivity.
        -- left. reflexivity.
        -- intros e' [= <-]. eexists. reflexivity.
        -- intros [=].
      * split; [|split; [|split; [|split]]].
        -- intros m Hm. apply (write_file_other _ _ _ _ Hm).
        -- right. destruct (write_fault_prefix k n (export_writes out u o)) as [rest Hr].
           exists out, (substring 0 n (concat_strings (firstn k (export_writes out u o)))), rest.
           split; [reflexivity|]. split; [exact Hr|intros [=]].
        -- intros [=].
        -- intros e' [= <-]. eexists. reflexivity.
        -- intros [=].
    + injection H as <- <- <-.
      split; [|split; [|split; [|split]]]; try reflexivity.
      * left. reflexivity.
      * intros e' [= <-]. eexists. reflexivity.
      * intros [=].
  - cbv beta iota zeta in H. injection H as <- <- <-.
    split; [|split; [|split; [|split]]]; try reflexivity.
    + left. reflexivity.
    + intros e' [= <-]. eexists. reflexivity.
    + intros [=].
  - cbv beta iota zeta in H. injection H as <- <- <-.
    split; [|split; [|split; [|split]]]; try reflexivity.
    + left. reflexivity.
    + intros e' [=].
    + intros [=].
Qed.

Lemma main_effects_witness :
  exists msgs res fs',
    main "alice" "acme" org_ok [ok_page page1; ok_page page2] no_files
      (WriteFault 3 10 OSError) = (msgs, res, fs') /\
    (forall n, n <> "contributions.md" -> fs' n = no_files n) /\
    (fs' = no_files \/
     exists out text rest,
       fs' = write_file no_files "contributions.md" text /\
       (text ++ rest)%string = concat_strings (export_writes out "alice" "acme") /\
       (res = Finished -> rest = EmptyString)) /\
    (res = Waiting -> fs' = no_files) /\
    (forall e, res = Raised e ->
       exists log, msgs = (Fetching "alice" "acme" :: log ++ [ErrorMsg e])%list) /\
    (res = Finished ->
       exists log, msgs = (Fetching "alice" "acme" :: log ++ [Exported "contributions.md"])%list).
Proof.
  eexists _, _, _. split; [vm_compute; reflexivity|].
  apply (main_effects "alice" "acme" org_ok [ok_page page1; ok_page page2] no_files
           (WriteFault 3 10 OSError)).
  vm_compute. reflexivity.
Defined.

(** X9: end to end. When the organisation lookup succeeds and the server
    sends a chain of pages, [main] either raises [ParseError] (a timestamp
    that [strptime] refuses) and writes nothing, or builds contributions
    whose Summary gives the sum of the pages' pull-request batch sizes, the
    length of the first non-empty issue list and the number of commit
    occurrences of the first non-empty commit list. With them it finishes
    and ["contributions.md"] holds the whole report when no I/O call fails;
    it raises the error of [open] and leaves the files as they were when
    [open] fails; it raises the error of the failing write and leaves the
    part of the report written so far when a write fails. *)
Theorem main_report_totals :
  forall username organization org_resp org_id ps rest fs fault msgs res fs',
  get_organization_id org_resp = Ok org_id -> page_chain ps ->
  main username organization org_resp (map ok_page ps ++ rest)%list fs fault = (msgs, res, fs') ->
  (res = Raised ParseError /\ fs' = fs) \/
  (exists out,
     pr_count out = batch_sizes ps /\
     issue_count out = List.length (first_nonempty (map issue_nodes ps)) /\
     commit_count out
       = list_sum (map (fun repo => List.length (repo_nodes repo))
                       (first_nonempty (map commit_repos ps))) /\
     match fault with
     | NoFault =>
         res = Finished /\
         fs' "contributions.md" = Some (concat_strings (export_writes out username organization))
     | OpenFault e => res = Raised e /\ fs' = fs
     | WriteFault k n e =>
         res = Raised e /\
         fs' "contributions.md"
           = Some (substring 0 n (concat_strings (firstn k (export_writes out username organization))))
     end).
Proof.
  intros u o org id ps rest fs fault msgs res fs' Horg Hc H.
  unfold main, fetch_contributions_io in H. rewrite Horg in H.
  destruct (fetch_chain ps rest None empty_aggregate 0 Hc) as [tr Htr].
  pose proof (fetch_loop_io_agrees (map ok_page ps ++ rest)%list None empty_aggregate 0) as Ha.
  destruct (fetch_loop_io None empty_aggregate 0 (map ok_page ps ++ rest)%list)
    as [[tr' out] log] eqn:E.
  rewrite Htr in Ha. injection Ha as <- <-.
  set (agg := fst (fold_left absorb_pair ps (empty_aggregate, 0%nat))) in H.
  destruct (normalize agg) as [out|e] eqn:Hn; cbv beta iota zeta in H.
  - right. exists out.
    destruct (normalize_counts agg out Hn) as (Hp & Hi & Hm).
    split; [|split; [|split]].
    + rewrite Hp. unfold agg. rewrite fold_absorb_prs. cbn [agg_prs empty_aggregate app].
      rewrite length_concat_map. reflexivity.
    + rewrite Hi. unfold agg. rewrite fold_absorb_issues. reflexivity.
    + rewrite Hm. unfold agg, commit_occurrences. rewrite fold_absorb_commits. reflexivity.
    + unfold export_to_markdown in H.
      destruct fault as [|e|k n e]; cbv beta iota zeta in H; injection H as <- <- <-.
      * split; [reflexivity|]. apply write_file_same.
      * split; reflexivity.
      * split; [reflexivity|]. apply write_file_same.
  - injection H as <- <- <-. left.
    destruct (normalize_err_timestamp agg e Hn) as (ts & _ & Hts).
    rewrite (to_day_err ts e Hts). split; reflexivity.
Qed.

Lemma main_report_totals_witness :
  exists msgs res fs',
  main "alice" "acme" org_ok (map ok_page [page1; page2] ++ [])%list no_files NoFault
    = (msgs, res, fs') /\
  ((res = Raised ParseError /\ fs' = no_files) \/
   (exists out,
      pr_count out = batch_sizes [page1; page2] /\
      issue_count out = List.length (first_nonempty (map issue_nodes [page1; page2])) /\
      commit_count out
        = list_sum (map (fun repo => List.length (repo_nodes repo))
                        (first_nonempty (map commit_repos [page1; page2]))) /\
      match NoFault with
      | NoFault =>
          res = Finished /\
          fs' "contributions.md" = Some (concat_strings (export_writes out "alice" "acme"))
      | OpenFault e => res = Raised e /\ fs' = no_files
      | WriteFault k n e =>
          res = Raised e /\
          fs' "contributions.md"
            = Some (substring 0 n (concat_strings (firstn k (export_writes out "alice" "acme"))))
      end)).
Proof.
  eexists _, _, _. split; [vm_compute; reflexivity|].
  eapply (main_report_totals "alice" "acme" org_ok (JStr "O_1") [page1; page2] [] no_files NoFault).
  - vm_compute. reflexivity.
  - repeat constructor.
  - vm_compute. reflexivity.
Defined.

End MainRun.

Module OrgLookup.

(** X10: [get_organization_id] returns a value exactly when the response
    is an object whose ["data"] is an object whose ["organization"] is an
    object with an ["id"]; the value is that ["id"]. *)
Theorem org_id_found_iff : forall j v,
  get_organization_id (HttpJson j) = Ok v <->
  exists kvs dk ok,
    j = JObj kvs /\ lookup_last "data" kvs = Some (JObj dk) /\
    lookup_last "organization" dk = Some (JObj ok) /\ lookup_last "id" ok = Some v.
Proof.
  intros j v. split.
  - intros H. unfold get_organization_id in H.
    destruct j as [| | | s | xs | kvs]; cbn in H; try discriminate H.
    + destruct (is_substring "data" s); discriminate H.
    + destruct (existsb _ xs); discriminate H.
    + destruct (lookup_last "data" kvs) as [d|] eqn:Hd; cbn in H; [|discriminate H].
      destruct d as [| | | s | xs | dk]; cbn in H; try discriminate H.
      * destruct (is_substring "organization" s); discriminate H.
      * destruct (existsb _ xs); discriminate H.
      * destruct (lookup_last "organization" dk) as [o|] eqn:Ho; cbn in H; [|discriminate H].
        destruct (truthy o); [|discriminate H].
        destruct o as [| | | | | ok]; cbn in H; try discriminate H.
        destruct (lookup_last "id" ok) as [w|] eqn:Hi; [|discriminate H].
        injection H as <-. exists kvs, dk, ok. auto.
  - intros (kvs & dk & ok & -> & Hd & Ho & Hi).
    destruct ok as [|kv ok]; [discriminate Hi|].
    unfold get_organization_id. cbn -[lookup_last]. rewrite Hd. cbn -[lookup_last].
    rewrite Ho. cbn -[lookup_last]. rewrite Hi. reflexivity.
Qed.

(** X11: two responses that do not report a missing organisation but make
    [get_organization_id] raise [TypeError]: a ["data"] that is [null], and
    an ["organization"] that Python finds true but that is not an object
    (a non-empty string or list, a non-zero number, [true]). *)
Theorem org_lookup_type_errors : forall kvs,
  (lookup_last "data" kvs = Some JNull ->
   get_organization_id (HttpJson (JObj kvs)) = Err TypeError) /\
  (forall dk o, lookup_last "data" kvs = Some (JObj dk) ->
   lookup_last "organization" dk = Some o -> truthy o = true ->
   (forall ok, o <> JObj ok) ->
   get_organization_id (HttpJson (JObj kvs)) = Err TypeError).
Proof.
  intros kvs. split.
  - intros Hd. unfold get_organization_id. cbn. rewrite Hd. reflexivity.
  - intros dk o Hd Ho Ht Hn. unfold get_organization_id. cbn. rewrite Hd. cbn. rewrite Ho. cbn.
    rewrite Ht. destruct o as [| | | | | ok]; try reflexivity. exfalso. exact (Hn ok eq_refl).
Qed.

End OrgLookup.
